(** * bin/cmd.js: the command-line entry point, embedded and verified

    The development follows the source file top to bottom:

    - [JS]      the JavaScript values the entry point inspects (typeof,
                truthiness, property reads, Array.prototype.slice, String);
    - [Runtime] the world the code acts on: the streams it writes to, the
                callbacks it fires, the tick queue of the event loop and the
                Promise cells, threaded through a state-and-exception monad;
    - [Cmd]     parseYargs and modulenameCmd themselves, over an environment
                [Env] that supplies the collaborators the file requires
                (yargs, the wrapped module, the caller's callback);
    - [Main]    the block that runs when the file is invoked directly
                (lines 185-204);
    - the theorems about them.

    Values are plain data: reading a property or calling [String] runs no
    code of the caller's, and a stream's [write] is recorded and returns. *)

From Stdlib Require Import QArith Qround ZArith Lia.
From stdpp Require Import gmap strings list pretty.

Set Warnings "-register-all".

(* ===================================================================== *)
(** ** JavaScript values *)
(* ===================================================================== *)

Module JS.

(** A JavaScript number: the finite ones are rationals (every double is
    one), which is all that [Math.floor(x) !== x] and [x < 2] look at. *)
Inductive JSNum :=
| NaN
| Infinity (negative : bool)
| Finite (q : Q).

(** What a function value does when it is called.  [HostFn] is a function
    of the caller's (a completion callback, a stream method); [Settler p]
    is the closure [function(err, result) { if (err) reject(err) else
    resolve(result) }] that modulenameCmd builds around Promise [p]. *)
Inductive Callable :=
| HostFn (id : nat)
| Settler (p : nat).

Inductive JSValue :=
| JUndefined
| JNull
| JBool (b : bool)
| JNum (n : JSNum)
| JStr (s : string)
| JFunction (c : Callable) (props : gmap string JSValue)
| JArray (items : list JSValue)
| JObject (props : gmap string JSValue).

(** Error objects: what [new TypeError(msg)] and friends carry. *)
Record Error := mkError { err_name : string; err_message : string }.

Definition TypeError (msg : string) : Error := mkError "TypeError" msg.
Definition RangeError (msg : string) : Error := mkError "RangeError" msg.

Inductive JSType :=
| TUndefined | TObject | TBoolean | TNumber | TString | TFunction.

Definition typeof (v : JSValue) : JSType :=
  match v with
  | JUndefined => TUndefined
  | JNull => TObject
  | JBool _ => TBoolean
  | JNum _ => TNumber
  | JStr _ => TString
  | JFunction _ _ => TFunction
  | JArray _ => TObject
  | JObject _ => TObject
  end.

Definition is_function (v : JSValue) : bool :=
  match v with JFunction _ _ => true | _ => false end.

Definition is_undefined (v : JSValue) : bool :=
  match v with JUndefined => true | _ => false end.

Definition is_object (v : JSValue) : bool :=
  match typeof v with TObject => true | _ => false end.

(** ToBoolean. *)
Definition truthy (v : JSValue) : bool :=
  match v with
  | JUndefined | JNull => false
  | JBool b => b
  | JNum NaN => false
  | JNum (Infinity _) => true
  | JNum (Finite q) => negb (Qeq_bool q 0)
  | JStr s => negb (String.eqb s "")
  | JFunction _ _ | JArray _ | JObject _ => true
  end.

Definition num_of_nat (n : nat) : JSValue := JNum (Finite (inject_Z (Z.of_nat n))).

(** [v.k] for a value that is neither undefined nor null (the source reads
    properties only behind such a guard). *)
Definition get_prop (v : JSValue) (k : string) : JSValue :=
  match v with
  | JObject props | JFunction _ props => default JUndefined (props !! k)
  | JArray items => if String.eqb k "length" then num_of_nat (length items) else JUndefined
  | JStr s => if String.eqb k "length" then num_of_nat (String.length s) else JUndefined
  | _ => JUndefined
  end.

(** The element at index [i], if the value has one: HasProperty followed
    by Get on the key [ToString(i)]. *)
Definition get_index (v : JSValue) (i : nat) : option JSValue :=
  match v with
  | JArray items => items !! i
  | JObject props | JFunction _ props => props !! (pretty i)
  | _ => None
  end.

(** The own enumerable properties that object-assign copies from a source. *)
Definition own_props (v : JSValue) : gmap string JSValue :=
  match v with
  | JObject props | JFunction _ props => props
  | JArray items => list_to_map (imap (fun i x => (pretty i, x)) items)
  | _ => ∅
  end.

(** [assign(target, source)] of the object-assign package: the source's
    properties win, a null or undefined source adds nothing. *)
Definition assign (target : gmap string JSValue) (source : JSValue)
  : gmap string JSValue :=
  own_props source ∪ target.

(** [Math.floor(x) !== x] is false exactly for the numbers that are their
    own floor; anything that is not a number differs from its floor. *)
Definition floor_is_self (v : JSValue) : bool :=
  match v with
  | JNum (Finite q) => Qeq_bool (inject_Z (Qfloor q)) q
  | JNum (Infinity _) => true
  | _ => false
  end.

(** [x < 2] for a number. *)
Definition lt_two (v : JSValue) : bool :=
  match v with
  | JNum (Finite q) => negb (Qle_bool 2 q)
  | JNum (Infinity negative) => negative
  | _ => false
  end.

(** ToLength of a number that is its own floor and not below 2. *)
Definition to_length (v : JSValue) : Z :=
  match v with
  | JNum (Finite q) => Z.min (Qfloor q) (2 ^ 53 - 1)
  | JNum (Infinity false) => 2 ^ 53 - 1
  | _ => 0
  end.

Definition max_array_length : Z := 2 ^ 32 - 1.

(** The line feed that ends every line the command writes. *)
Definition LF : string := String.String (Ascii.ascii_of_nat 10) "".

End JS.
Export JS.

(* ===================================================================== *)
(** ** The data the entry point passes around *)
(* ===================================================================== *)

(** The object yargs hands to its completion: [argv.help], [argv.version],
    the positional arguments [argv._] and the two counters. *)
Record Argv := mkArgv {
  argv_help : bool;
  argv_version : bool;
  argv_positional : list JSValue;
  argv_verbose : Z;
  argv_quiet : Z
}.

(** The arguments of the parse completion, [(err, argOpts, output)];
    [None] is an argument that is undefined or null. *)
Record ParseArgs := mkParseArgs {
  p_err : option Error;
  p_argv : option Argv;
  p_output : option string
}.

(** The arguments of the completion callback, [(err, result)]. *)
Record CbArgs := mkCbArgs {
  c_err : option Error;
  c_result : option Z
}.

(** [cmdOpts], the object given to the wrapped module. *)
Record CallOptions := mkCallOptions {
  files : list JSValue;
  verbosity : Z
}.

(** The options object after [assign] and the three capability checks. *)
Record Streams := mkStreams {
  opt_in : JSValue;
  opt_out : JSValue;
  opt_err : JSValue
}.

(** The yargs instance is configured declaratively; the configuration is
    data handed to the parsing collaborator. *)
Record OptionSpec := mkOptionSpec {
  os_name : string;
  os_alias : string;
  os_describe : string;
  os_count : bool
}.

Record YargsConfig := mkYargsConfig {
  yc_usage : string;
  yc_help_aliases : list string;
  yc_options : list OptionSpec;
  yc_version : string;
  yc_version_aliases : list string;
  yc_strict : bool
}.

(** What a collaborator that takes a completion does with it during one
    call: it fires the completion at once ([Now]) or leaves it to a later
    turn of the event loop ([Later]), any number of times in any order,
    and then returns or throws. *)
Inductive Action (A : Type) :=
| Now (a : A)
| Later (a : A).
Arguments Now {A} a.
Arguments Later {A} a.

Inductive End :=
| Returns
| Throws (e : Error).

Record Run (A : Type) := mkRun {
  actions : list (Action A);
  fin : End
}.
Arguments mkRun {A} actions fin.
Arguments actions {A} r.
Arguments fin {A} r.

(** The collaborators of bin/cmd.js, none of which it defines itself. *)
Record Env := mkEnv {
  (** [typeof Promise === 'function'] *)
  promise_available : bool;
  (** [String(v)] for a value that is not already a string *)
  host_String : JSValue -> string;
  (** [packageJson.name] and [packageJson.version] *)
  package_name : string;
  package_version : string;
  (** [yargs.parse(args, completion)] of a yargs instance so configured *)
  Yargs : YargsConfig -> list (option string) -> Run ParseArgs;
  (** [modulename(cmdOpts, callback)], the wrapped module *)
  modulename : CallOptions -> Run CbArgs;
  (** whether the caller's function [id], called as the completion
      callback with these arguments, throws *)
  callback_throws : nat -> CbArgs -> option Error
}.

(* ===================================================================== *)
(** ** The world: trace, tick queue, Promise cells *)
(* ===================================================================== *)

Module Runtime.

Inductive Role := In | Out | Err.

(** What the entry point does to the outside, in order. *)
Inductive Event :=
| EvParse (cfg : YargsConfig) (tokens : list (option string))
| EvWrite (role : Role) (sink : JSValue) (text : string)
| EvModule (opts : CallOptions)
| EvCallback (f : nat) (a : CbArgs).

(** The closures the code leaves for a later turn, with what they captured. *)
Inductive Task :=
| TkCallbackErr (cb : Callable) (e : Error)
| TkParsed (st : Streams) (cb : Callable) (pa : ParseArgs)
| TkModuleDone (cb : Callable) (ca : CbArgs).

Inductive PState :=
| Pending
| Resolved (result : option Z)
| Rejected (e : Error).

Record World := mkWorld {
  trace : list Event;
  queue : list Task;
  promises : list PState;
  (** [require.main === module] *)
  main_is_module : bool
}.

Definition init_world : World := mkWorld [] [] [] false.

Inductive Outcome (A : Type) :=
| Ret (a : A)
| Throw (e : Error).
Arguments Ret {A} a.
Arguments Throw {A} e.

(** Computations: they change the world and return or throw; what was
    done before a throw stays done. *)
Definition M (A : Type) : Type := World -> Outcome A * World.

Definition ret {A} (a : A) : M A := fun w => (Ret a, w).
Definition throw {A} (e : Error) : M A := fun w => (Throw e, w).
Definition bind {A B} (m : M A) (k : A -> M B) : M B :=
  fun w => match m w with
           | (Ret a, w') => k a w'
           | (Throw e, w') => (Throw e, w')
           end.

(** The monad structure, with stdpp's notations [x ← m; k] and [m ;; k]. *)
#[global] Instance M_ret : MRet M := @ret.
#[global] Instance M_bind : MBind M := fun A B k m => bind m k.

Definition log (ev : Event) : M unit :=
  fun w => (Ret tt, mkWorld (trace w ++ [ev]) (queue w) (promises w) (main_is_module w)).

(** [process.nextTick(task)], and any other way of leaving a closure to a
    later turn. *)
Definition enqueue (t : Task) : M unit :=
  fun w => (Ret tt, mkWorld (trace w) (queue w ++ [t]) (promises w) (main_is_module w)).

(** [require.main = module] *)
Definition set_require_main : M unit :=
  fun w => (Ret tt, mkWorld (trace w) (queue w) (promises w) true).

(** A Promise is settled once; later settlements are ignored. *)
Definition settle_cell (s : PState) (c : PState) : PState :=
  match c with Pending => s | _ => c end.

Definition settle (p : nat) (s : PState) : M unit :=
  fun w => (Ret tt, mkWorld (trace w) (queue w)
                            (alter (settle_cell s) p (promises w))
                            (main_is_module w)).

(** [new Promise(executor)]: the executor runs at once; if it throws, the
    Promise is rejected with what it threw. *)
Definition new_Promise {A} (executor : nat -> M A) : M nat :=
  fun w =>
    let p := length (promises w) in
    let w0 := mkWorld (trace w) (queue w) (promises w ++ [Pending]) (main_is_module w) in
    match executor p w0 with
    | (Ret _, w1) => (Ret p, w1)
    | (Throw e, w1) => (settle p (Rejected e) ;; ret p) w1
    end.

(** Trace projections used to state results. *)
Definition callbacks_of (f : nat) (t : list Event) : list CbArgs :=
  omap (fun ev => match ev with
                  | EvCallback g a => if decide (g = f) then Some a else None
                  | _ => None
                  end) t.

Definition module_calls (t : list Event) : list CallOptions :=
  omap (fun ev => match ev with EvModule o => Some o | _ => None end) t.

(** What was written through [options.in], [options.out] or [options.err]:
    the stream that stood there and the text. *)
Definition writes_to (r : Role) (t : list Event) : list (JSValue * string) :=
  omap (fun ev => match ev with
                  | EvWrite In sink s => match r with In => Some (sink, s) | _ => None end
                  | EvWrite Out sink s => match r with Out => Some (sink, s) | _ => None end
                  | EvWrite Err sink s => match r with Err => Some (sink, s) | _ => None end
                  | _ => None
                  end) t.


End Runtime.
Export Runtime.

(* ===================================================================== *)
(** ** bin/cmd.js *)
(* ===================================================================== *)

Module Cmd.

(** [process.stdin], [process.stdout], [process.stderr]: a readable stream
    has an [on] method, a writable one a [write] method. *)
Definition process_stdin : JSValue := JObject {[ "on" := JFunction (HostFn 0) ∅ ]}.
Definition process_stdout : JSValue := JObject {[ "write" := JFunction (HostFn 1) ∅ ]}.
Definition process_stderr : JSValue := JObject {[ "write" := JFunction (HostFn 2) ∅ ]}.

(** The first argument of [assign] in modulenameCmd. *)
Definition default_options : gmap string JSValue :=
  <[ "in" := process_stdin ]> (<[ "out" := process_stdout ]> {[ "err" := process_stderr ]}).

(** A yargs instance: its configuration and what its [parse] does. *)
Record YargsInstance := mkYargs {
  y_config : YargsConfig;
  y_parse : list (option string) -> Run ParseArgs
}.

(** One call of a collaborator that was handed a completion: [now] is the
    completion itself, [later] the task that fires it on a later turn.
    The boolean tells whether the completion was entered during the call;
    a completion that throws ends the call with what it threw. *)
Fixpoint collab_actions {A} (now : A -> M unit) (later : A -> Task)
    (acts : list (Action A)) (e : End) (called : bool) (w : World)
  : bool * Outcome unit * World :=
  match acts with
  | [] => match e with
          | Returns => (called, Ret tt, w)
          | Throws err => (called, Throw err, w)
          end
  | Now a :: rest =>
      match now a w with
      | (Ret _, w') => collab_actions now later rest e true w'
      | (Throw err, w') => (true, Throw err, w')
      end
  | Later a :: rest =>
      match enqueue (later a) w with
      | (_, w') => collab_actions now later rest e called w'
      end
  end.

(** parseYargs (lines 20-38).  [callback] is the parse completion;
    [later] stands for the wrapper closure (lines 26-29) when yargs keeps
    it for a later turn.  The local [called] is the boolean threaded
    through the try block. *)
Definition parseYargs (yargs : YargsInstance) (args : list (option string))
    (callback : ParseArgs -> M unit) (later : ParseArgs -> Task) : M unit :=
  fun w =>
    let r := y_parse yargs args in
    match log (EvParse (y_config yargs) args) w with
    | (_, w0) =>
        match collab_actions callback later (actions r) (fin r) false w0 with
        | (_, Ret _, w') => (Ret tt, w')
        | (true, Throw err, w') => (Throw err, w')
        | (false, Throw err, w') => callback (mkParseArgs (Some err) None None) w'
        end
    end.

Section WithEnv.
Context (env : Env).

(** [String(v)] *)
Definition js_String (v : JSValue) : string :=
  match v with
  | JStr s => s
  | _ => host_String env v
  end.

(** [Array.prototype.slice.call(args, 2).map(String)] for an [args] whose
    length is a number that is its own floor and at least 2.  An array
    gives its elements from the third on.  Any other object is read index
    by index up to its length: an index it lacks leaves a hole ([None]),
    which [map] skips, and a result longer than an array can be makes
    [slice] throw (ECMAScript 2015 and later; for lengths an array can
    have, earlier editions agree). *)
Definition slice2_map_String (args : JSValue) : Error + list (option string) :=
  match args with
  | JArray items => inr ((fun v => Some (js_String v)) <$> drop 2 items)
  | _ =>
      let count := (to_length (get_prop args "length") - 2)%Z in
      if (max_array_length <? count)%Z
      then inl (RangeError "Invalid array length")
      else inr ((fun k => js_String <$> get_index args k) <$> seq 2 (Z.to_nat count))
  end.

(** Lines 87-96. *)
Definition normalize_args (args : JSValue) : Error + list (option string) :=
  match args with
  | JUndefined | JNull => inr []
  | _ =>
      if negb (is_object args) || negb (floor_is_self (get_prop args "length"))
      then inl (TypeError "args must be Array-like")
      else if lt_two (get_prop args "length")
      then inl (RangeError "args must have at least 2 elements")
      else slice2_map_String args
  end.

(** Lines 98-119. *)
Definition resolve_streams (options : JSValue) : Error + Streams :=
  if negb (is_undefined options) && negb (is_object options)
  then inl (TypeError "options must be an object")
  else
    let merged := assign default_options options in
    let opt k := default JUndefined (merged !! k) in
    if negb (truthy (opt "in")) || negb (is_function (get_prop (opt "in") "on"))
    then inl (TypeError "options.in must be a stream.Readable")
    else if negb (truthy (opt "out")) || negb (is_function (get_prop (opt "out") "write"))
    then inl (TypeError "options.out must be a stream.Writable")
    else if negb (truthy (opt "err")) || negb (is_function (get_prop (opt "err") "write"))
    then inl (TypeError "options.err must be a stream.Writable")
    else inr (mkStreams (opt "in") (opt "out") (opt "err")).

(** The try block, lines 86-119: what it throws, or what it leaves in
    [args] and [options]. *)
Definition validate (args options : JSValue)
  : Error + (list (option string) * Streams) :=
  match normalize_args args with
  | inl e => inl e
  | inr tokens =>
      match resolve_streams options with
      | inl e => inl e
      | inr st => inr (tokens, st)
      end
  end.

(** Lines 129-146. *)
Definition yargs_config : YargsConfig := {|
  yc_usage := "Usage: $0 [options] [args...]";
  yc_help_aliases := ["h"; "?"];
  yc_options := [ mkOptionSpec "quiet" "q" "Print less output" true;
                  mkOptionSpec "verbose" "v" "Print more output" true ];
  yc_version := package_name env +:+ " " +:+ package_version env;
  yc_version_aliases := ["V"];
  yc_strict := true
|}.

Definition new_Yargs : YargsInstance := mkYargs yargs_config (Yargs env yargs_config).

(** Calling the completion callback [(err, result)]. *)
Definition call_callback (cb : Callable) (a : CbArgs) : M unit :=
  match cb with
  | HostFn f =>
      log (EvCallback f a) ;;
      match callback_throws env f a with
      | Some e => throw e
      | None => ret tt
      end
  | Settler p =>
      match c_err a with
      | Some e => settle p (Rejected e)
      | None => settle p (Resolved (c_result a))
      end
  end.

(** [options.out.write(text)], [options.err.write(text)] *)
Definition write (r : Role) (st : Streams) (text : string) : M unit :=
  log (EvWrite r (match r with In => opt_in st | Out => opt_out st | Err => opt_err st end) text).

(** [modulename(cmdOpts, callback)] *)
Definition call_modulename (cmdOpts : CallOptions) (cb : Callable) : M unit :=
  fun w =>
    let r := modulename env cmdOpts in
    match log (EvModule cmdOpts) w with
    | (_, w0) =>
        match collab_actions (call_callback cb) (TkModuleDone cb) (actions r) (fin r) false w0 with
        | (_, o, w') => (o, w')
        end
    end.

(** A string that is neither undefined nor empty. *)
Definition nonempty (output : option string) : option string :=
  match output with
  | Some s => if String.eqb s "" then None else Some s
  | None => None
  end.

(** The parse completion, lines 147-177. *)
Definition on_parsed (st : Streams) (cb : Callable) (pa : ParseArgs) : M unit :=
  match p_err pa with
  | Some err =>
      write Err st (match nonempty (p_output pa) with
                    | Some output => output +:+ LF
                    | None => err_name err +:+ ": " +:+ err_message err +:+ LF
                    end) ;;
      call_callback cb (mkCbArgs None (Some 1%Z))
  | None =>
      match nonempty (p_output pa) with
      | Some output => write Out st (output +:+ LF)
      | None => ret tt
      end ;;
      match p_argv pa with
      | None => throw (TypeError "Cannot read property 'help' of undefined")
      | Some argOpts =>
          if argv_help argOpts || argv_version argOpts
          then call_callback cb (mkCbArgs None (Some 0%Z))
          else if negb (length (argv_positional argOpts) =? 1)%nat
          then
            write Err st ("Error: Exactly one argument is required." +:+ LF) ;;
            call_callback cb (mkCbArgs None (Some 1%Z))
          else
            call_modulename
              {| files := argv_positional argOpts;
                 verbosity := (argv_verbose argOpts - argv_quiet argOpts)%Z |}
              cb
      end
  end.

(** modulenameCmd from line 86 on, where [callback] is known to be a
    function. *)
Definition modulenameCmd_body (args options : JSValue) (cb : Callable) : M unit :=
  match validate args options with
  | inl err => enqueue (TkCallbackErr cb err)
  | inr (tokens, st) =>
      set_require_main ;;
      parseYargs new_Yargs tokens (on_parsed st cb) (TkParsed st cb)
  end.

(** What modulenameCmd returns. *)
Inductive RetVal :=
| RUndefined
| RPromise (p : nat).

(** modulenameCmd (lines 67-180).  The call it makes to itself at line 76
    passes a function as [callback], so that call falls through the first
    three tests to line 86: it is [modulenameCmd_body]. *)
Definition modulenameCmd (args options callback : JSValue) : M RetVal :=
  let '(options, callback) :=
    if negb (truthy callback) && is_function options
    then (JNull, options)
    else (options, callback) in
  if negb (truthy callback) && promise_available env
  then
    p ← new_Promise (fun p => modulenameCmd_body args options (Settler p)) ;
    ret (RPromise p)
  else
    match callback with
    | JFunction cb _ => modulenameCmd_body args options cb ;; ret RUndefined
    | _ => throw (TypeError "callback must be a function")
    end.

(** One turn of the event loop runs the closure that was queued first. *)
Definition run_task (t : Task) : M unit :=
  match t with
  | TkCallbackErr cb e => call_callback cb (mkCbArgs (Some e) None)
  | TkParsed st cb pa => on_parsed st cb pa
  | TkModuleDone cb ca => call_callback cb ca
  end.

Definition pop_task : World -> option (Task * World) :=
  fun w => match queue w with
           | [] => None
           | t :: rest => Some (t, mkWorld (trace w) rest (promises w) (main_is_module w))
           end.

(** The event loop, for at most [fuel] turns; an exception that reaches
    it ends the process. *)
Fixpoint run_loop (fuel : nat) (w : World) : Outcome unit * World :=
  match fuel with
  | O => (Ret tt, w)
  | S n =>
      match pop_task w with
      | None => (Ret tt, w)
      | Some (t, w0) =>
          match run_task t w0 with
          | (Ret _, w') => run_loop n w'
          | (Throw e, w') => (Throw e, w')
          end
      end
  end.

(** An invocation from a fresh process: the call itself, then the event
    loop.  The result is what the call returned or threw, how the loop
    ended, and the world after it. *)
Definition invoke (fuel : nat) (args options callback : JSValue)
  : Outcome RetVal * Outcome unit * World :=
  match modulenameCmd args options callback init_world with
  | (r, w1) => match run_loop fuel w1 with (l, w2) => (r, l, w2) end
  end.

End WithEnv.
End Cmd.
Export Cmd.

(* ===================================================================== *)
(** ** The file run directly (lines 185-204) *)
(* ===================================================================== *)

Module Main.

(** The properties of an error object that only the block at the end of
    the file reads: [err.stdout], [err.stderr] and [err.exitCode]. *)
Record ErrorProps := mkErrorProps {
  ep_stdout : option string;
  ep_stderr : option string;
  ep_exitCode : JSValue
}.

(** What the process does that can be seen from outside: it writes to a
    stream and, at the end, calls [process.exit]. *)
Inductive ProcessEffect :=
| PWrite (sink : JSValue) (text : string)
| PExit (code : JSValue).

(** [mainOptions] *)
Definition mainOptions : JSValue := JObject default_options.

(** The exit code the callback was given, as [process.exit] receives it. *)
Definition result_value (r : option Z) : JSValue :=
  match r with
  | Some z => JNum (Finite (inject_Z z))
  | None => JUndefined
  end.

Section WithErrors.
Context (error_props : Error → ErrorProps).

(** The callback of lines 193-203. *)
Definition main_callback (a : CbArgs) : list ProcessEffect :=
  match c_err a with
  | Some err =>
      match nonempty (ep_stdout (error_props err)) with
      | Some text => [PWrite process_stdout text]
      | None => []
      end
      ++ match nonempty (ep_stderr (error_props err)) with
         | Some text => [PWrite process_stderr text]
         | None => []
         end
      ++ [PWrite process_stderr (err_name err +:+ ": " +:+ err_message err +:+ LF);
          PExit (match typeof (ep_exitCode (error_props err)) with
                 | TNumber => ep_exitCode (error_props err)
                 | _ => JNum (Finite 1)
                 end)]
  | None => [PExit (result_value (c_result a))]
  end.

(** What the process shows of a trace when [f] is that callback: the
    writes, in order, up to the first call of [f], which ends the process. *)
Fixpoint process_view (f : nat) (t : list Event) : list ProcessEffect :=
  match t with
  | [] => []
  | EvWrite _ sink text :: rest => PWrite sink text :: process_view f rest
  | EvCallback g a :: rest =>
      if decide (g = f) then main_callback a else process_view f rest
  | _ :: rest => process_view f rest
  end.

(** Lines 185-204, with [argv] for [process.argv] and [f] naming the
    callback. *)
Definition main (env : Env) (fuel : nat) (f : nat) (argv : list string)
  : list ProcessEffect :=
  process_view f
    (trace (invoke env fuel (JArray (JStr <$> argv)) mainOptions (JFunction (HostFn f) ∅)).2).

End WithErrors.
End Main.
Export Main.

(* ===================================================================== *)
(** ** A sample environment *)
(* ===================================================================== *)

(** Collaborators to run the entry point on concrete command lines: a
    parser for the option grammar of lines 129-146 that fires its
    completion at once, as yargs does, and a wrapped module that reports
    exit code 0 on a later turn.  The theorems below hold for every
    environment; this one serves the examples. *)
Module Sample.

Definition help_text (cfg : YargsConfig) : string :=
  yc_usage cfg +:+ LF +:+ "Options:" +:+ LF +:+
  "  --help, -h, -?  Show help" +:+ LF +:+
  "  --quiet, -q     Print less output" +:+ LF +:+
  "  --verbose, -v   Print more output" +:+ LF +:+
  "  --version, -V   Show version number".

Definition is_flag (s : string) : bool :=
  match s with
  | String.String c (String.String _ _) => Ascii.eqb c (Ascii.ascii_of_nat 45)
  | _ => false
  end.

(** One token at a time; the unknown flag met first is remembered. *)
Fixpoint scan (tokens : list (option string)) (a : Argv) (unknown : option string)
  : Argv * option string :=
  match tokens with
  | [] => (a, unknown)
  | None :: rest => scan rest a unknown
  | Some t :: rest =>
      if bool_decide (t ∈ ["--help"; "-h"; "-?"])
      then scan rest (mkArgv true (argv_version a) (argv_positional a) (argv_verbose a) (argv_quiet a)) unknown
      else if bool_decide (t ∈ ["--version"; "-V"])
      then scan rest (mkArgv (argv_help a) true (argv_positional a) (argv_verbose a) (argv_quiet a)) unknown
      else if bool_decide (t ∈ ["--quiet"; "-q"])
      then scan rest (mkArgv (argv_help a) (argv_version a) (argv_positional a) (argv_verbose a) (argv_quiet a + 1)) unknown
      else if bool_decide (t ∈ ["--verbose"; "-v"])
      then scan rest (mkArgv (argv_help a) (argv_version a) (argv_positional a) (argv_verbose a + 1) (argv_quiet a)) unknown
      else if is_flag t
      then scan rest a (match unknown with None => Some t | _ => unknown end)
      else scan rest (mkArgv (argv_help a) (argv_version a) (argv_positional a ++ [JStr t]) (argv_verbose a) (argv_quiet a)) unknown
  end.

Definition parse (cfg : YargsConfig) (tokens : list (option string)) : Run ParseArgs :=
  let '(a, unknown) := scan tokens (mkArgv false false [] 0 0) None in
  let pa :=
    if argv_help a then mkParseArgs None (Some a) (Some (help_text cfg))
    else if argv_version a then mkParseArgs None (Some a) (Some (yc_version cfg))
    else match unknown with
         | Some t => mkParseArgs (Some (mkError "YError" ("Unknown argument: " +:+ t)))
                                 (Some a)
                                 (Some (help_text cfg +:+ LF +:+ LF +:+ "Unknown argument: " +:+ t))
         | None => mkParseArgs None (Some a) (Some "")
         end in
  mkRun [Now pa] Returns.

(** [String] as the examples need it: exact on undefined, null, booleans,
    integers, NaN, the infinities and strings; every other value prints
    as a plain object does. *)
Definition to_string (v : JSValue) : string :=
  match v with
  | JUndefined => "undefined"
  | JNull => "null"
  | JBool b => if b then "true" else "false"
  | JNum (Finite q) => if floor_is_self v then pretty (Qfloor q) else "[object Object]"
  | JNum NaN => "NaN"
  | JNum (Infinity negative) => if negative then "-Infinity" else "Infinity"
  | JStr s => s
  | JFunction _ _ | JArray _ | JObject _ => "[object Object]"
  end.

Definition env : Env := {|
  promise_available := true;
  host_String := to_string;
  package_name := "git-branch-is";
  package_version := "0.1.0";
  Yargs := parse;
  modulename := fun _ => mkRun [Later (mkCbArgs None (Some 0%Z))] Returns;
  callback_throws := fun f _ => if decide (f = 13) then Some (mkError "Error" "callback failed") else None
|}.

(** The same environment around another parser and another module. *)
Definition env_of (yargs : YargsConfig -> list (option string) -> Run ParseArgs)
    (module : CallOptions -> Run CbArgs) : Env := {|
  promise_available := true;
  host_String := to_string;
  package_name := "git-branch-is";
  package_version := "0.1.0";
  Yargs := yargs;
  modulename := module;
  callback_throws := fun _ _ => None
|}.

(** An error of the wrapped module's, and what else it carries: output
    that was buffered and an exit code of its own. *)
Definition failure : Error := mkError "Error" "not on branch".
Definition failure_props (e : Error) : ErrorProps :=
  mkErrorProps (Some "partial output") None (JNum (Finite 3)).

(** The caller's completion callback in the examples, and one that
    throws. *)
Definition callback : JSValue := JFunction (HostFn 7) ∅.
Definition faulty : JSValue := JFunction (HostFn 13) ∅.

Definition argv (l : list string) : JSValue := JArray (JStr <$> l).

End Sample.

(* ===================================================================== *)
(** ** Contracts of the collaborators *)
(* ===================================================================== *)

(** A collaborator that fires its completion exactly once with [a], at
    once or on a later turn, and returns. *)
Definition once {A} (a : A) (r : Run A) : Prop :=
  fin r = Returns ∧ (actions r = [Now a] ∨ actions r = [Later a]).

(** The parse of [tokens] succeeds with [argOpts] and [output]. *)
Definition parses_to (env : Env) (tokens : list (option string))
    (argOpts : Argv) (output : option string) : Prop :=
  once (mkParseArgs None (Some argOpts) output) (Yargs env (yargs_config env) tokens).

(** The parse of [tokens] fails: yargs reports [err] to its completion,
    with the text it rendered, or throws it before firing the completion. *)
Definition parse_fails (env : Env) (tokens : list (option string))
    (err : Error) (output : option string) : Prop :=
  (∃ argOpts, once (mkParseArgs (Some err) argOpts output) (Yargs env (yargs_config env) tokens))
  ∨ (Yargs env (yargs_config env) tokens = mkRun [] (Throws err) ∧ output = None).

(** The text written for rendered output, if there was any. *)
Definition rendered (st : Streams) (output : option string) : list (JSValue * string) :=
  match nonempty output with
  | Some s => [(opt_out st, s +:+ LF)]
  | None => []
  end.



(** The three process-wide streams, as the resolved options. *)
Definition default_streams : Streams :=
  mkStreams process_stdin process_stdout process_stderr.

(** After the exchange of lines 68-71: what stands as the callback. *)
Definition effective_callback (options callback : JSValue) : JSValue :=
  if negb (truthy callback) && is_function options then options else callback.

(** The deferred style: no callback to speak of, no function in the
    options position to stand in for it, and a Promise to return. *)
Definition deferred_style (env : Env) (options callback : JSValue) : Prop :=
  truthy callback = false ∧ is_function options = false ∧ promise_available env = true.

(** The callback is refused at line 83: it is truthy and not a function,
    or it is falsy while the options are no function to take its place
    and there is no Promise to return instead. *)
Definition callback_rejected (env : Env) (options callback : JSValue) : bool :=
  (truthy callback && negb (is_function callback))
  || (negb (truthy callback) && negb (is_function options) && negb (promise_available env)).

(** Collaborators that keep to their side: the caller's function [f] does
    not throw when called as the completion callback; the wrapped module
    does not throw out of its call; yargs does not throw once it has fired
    the completion, and a parse it reports as successful comes with its
    [argv]. *)
Definition never_throws (env : Env) (f : nat) : Prop :=
  ∀ a, callback_throws env f a = None.

Definition module_returns (env : Env) : Prop :=
  ∀ cmdOpts, fin (modulename env cmdOpts) = Returns.

Definition yargs_orderly (env : Env) : Prop :=
  ∀ tokens,
    let r := Yargs env (yargs_config env) tokens in
    (fin r = Returns ∨ ∀ pa, Now pa ∉ actions r)
    ∧ ∀ pa, Now pa ∈ actions r → p_err pa = None → is_Some (p_argv pa).

(** How a report [(err, result)] settles a Promise (line 77), and how a
    sequence of reports does: the first one wins. *)
Definition report_state (a : CbArgs) : PState :=
  match c_err a with
  | Some e => Rejected e
  | None => Resolved (c_result a)
  end.

Definition settle_all (reports : list CbArgs) (c : PState) : PState :=
  foldl (λ c a, settle_cell (report_state a) c) c reports.

Definition settled_by (reports : list CbArgs) : PState :=
  match reports with
  | [] => Pending
  | a :: _ => report_state a
  end.

(** The trace without the calls of completion callbacks. *)
Definition is_callback_event (ev : Event) : bool :=
  match ev with EvCallback _ _ => true | _ => false end.

Definition non_callback (t : list Event) : list Event :=
  List.filter (λ ev, negb (is_callback_event ev)) t.

(** The callback a queued closure has captured, and the same closure
    around another callback. *)
Definition task_callback (t : Task) : Callable :=
  match t with
  | TkCallbackErr cb _ | TkParsed _ cb _ | TkModuleDone cb _ => cb
  end.

Definition retarget (cb : Callable) (t : Task) : Task :=
  match t with
  | TkCallbackErr _ e => TkCallbackErr cb e
  | TkParsed st _ pa => TkParsed st cb pa
  | TkModuleDone _ ca => TkModuleDone cb ca
  end.

(** The first (and, in an invocation, only) Promise cell. *)
Definition cell_of (w : World) : PState := default Pending (promises w !! 0).

(** A computation that returns, whatever the world it starts in. *)
Definition returns {A} (m : M A) : Prop := ∀ w, ∃ a w', m w = (Ret a, w').

(** A callback that, if it is a function of the caller's, does not throw. *)
Definition safe_callback (env : Env) (cb : Callable) : Prop :=
  ∀ f, cb = HostFn f → never_throws env f.

(** A world of the callback style, with [f] as the callback, against the
    world of the deferred style at the same point: the same trace but for
    the calls of [f], the same closures queued but around the settler of
    the one Promise, which is the only cell there is. *)
Definition sim_rel (f : nat) (wc wp : World) : Prop :=
  trace wp = non_callback (trace wc)
  ∧ queue wp = retarget (Settler 0) <$> queue wc
  ∧ Forall (λ t, task_callback t = HostFn f) (queue wc)
  ∧ main_is_module wp = main_is_module wc
  ∧ length (promises wp) = 1.

(** Two computations that keep such worlds in step: they end the same
    way, and the reports [f] receives on one side are the settlements
    tried on the other, in order. *)
Definition sim (f : nat) {A} (mc mp : M A) : Prop :=
  ∀ wc wp, sim_rel f wc wp →
    (mp wp).1 = (mc wc).1
    ∧ sim_rel f (mc wc).2 (mp wp).2
    ∧ ∃ new, callbacks_of f (trace (mc wc).2) = callbacks_of f (trace wc) ++ new
             ∧ cell_of (mp wp).2 = settle_all new (cell_of wp).

(** A computation that only ever appends to the trace. *)
Definition monotone {A} (m : M A) : Prop :=
  ∀ w, trace w `prefix_of` trace (m w).2.

(** A value that passes the check of an input stream (line 111), and one
    that passes the check of an output stream (lines 114 and 117). *)
Definition readable (v : JSValue) : bool :=
  truthy v && is_function (get_prop v "on").

Definition writable (v : JSValue) : bool :=
  truthy v && is_function (get_prop v "write").

(** The stream an options object gives for a key: its own if it has the
    key, the process's otherwise. *)
Definition chosen (props : gmap string JSValue) (k : string) (d : JSValue) : JSValue :=
  default d (props !! k).

(** A queued closure of this invocation: it is around the callback [cb]
    and, if it is a parse completion, over the streams [st]. *)
Definition task_ok (st : Streams) (cb : Callable) (t : Task) : Prop :=
  task_callback t = cb
  ∧ match t with TkParsed st' _ _ => st' = st | _ => True end.

(** A computation that adds to the trace only events that satisfy [P],
    and queues only closures of this invocation. *)
Definition emits (st : Streams) (cb : Callable) (P : Event → Prop) {A} (m : M A) : Prop :=
  ∀ w, Forall (task_ok st cb) (queue w) →
    Forall (task_ok st cb) (queue (m w).2)
    ∧ ∃ new, trace (m w).2 = trace w ++ new ∧ Forall P new.

(** Rendered text as the process shows it on its standard output. *)
Definition rendered_to_stdout (output : option string) : list ProcessEffect :=
  match nonempty output with
  | Some text => [PWrite process_stdout (text +:+ LF)]
  | None => []
  end.

(** Queueing, in order, the completions a collaborator left for a later
    turn. *)
Definition defer_all {A} (later : A → Task) (l : list A) : M unit :=
  foldr (λ a k, enqueue (later a) ;; k) (ret tt) l.

(* ===================================================================== *)
(** ** Proof tools *)
(* ===================================================================== *)

Lemma callbacks_of_app f t1 t2 :
  callbacks_of f (t1 ++ t2) = callbacks_of f t1 ++ callbacks_of f t2.
Proof. apply omap_app. Qed.

(** Unfold the monad and the small steps of the runtime. *)
Ltac unfold_js :=
  unfold call_modulename, call_callback, write, set_require_main, log,
    enqueue, settle, throw, ret, mbind, mret, M_bind, M_ret, bind in *.

(** Once the queue is empty the event loop has nothing left to do, however
    many turns it is allowed. *)
Lemma run_loop_idle env fuel w : queue w = [] → run_loop env fuel w = (Ret tt, w).
Proof. intros H. destruct fuel; [done|]. cbn. unfold pop_task. by rewrite H. Qed.

Ltac world_simpl :=
  cbn [fst snd trace queue promises main_is_module] in *.

Ltac use_eqs :=
  repeat match goal with
         | H : _ = _ |- _ => rewrite H
         end.

(** Run a computation whose collaborators are known from the hypotheses,
    splitting on whether the caller's callback throws and on whether text
    was rendered. *)
Ltac run_js :=
  repeat (cbn -[yargs_config nonempty String.append]; unfold_js; unfold on_parsed;
          try progress use_eqs;
          try rewrite run_loop_idle by done;
          try match goal with
              | |- context [callback_throws ?e ?f ?a] => destruct (callback_throws e f a) eqn:?
              | |- context [nonempty ?o] => destruct (nonempty o) eqn:?
              end).

(* ===================================================================== *)
(** ** The trace only grows *)
(* ===================================================================== *)




Lemma monotone_enqueue t : monotone (enqueue t).
Proof. intros w. done. Qed.


Lemma monotone_set_require_main : monotone set_require_main.
Proof. intros w. done. Qed.



Section Monotone.
Context (env : Env).






End Monotone.

(* ===================================================================== *)
(** ** What validation leaves in [args] *)
(* ===================================================================== *)

Lemma Qfloor_inject_Z z : Qfloor (inject_Z z) = z.
Proof. apply Qfloor_Z. Qed.


Section Validation.
Context (env : Env).


Lemma normalize_args_array items :
  2 ≤ length items →
  normalize_args env (JArray items) = inr ((λ v, Some (js_String env v)) <$> drop 2 items).
Proof.
  intros Hlen. unfold normalize_args.
  change (get_prop (JArray items) "length") with (num_of_nat (length items)).
  change (is_object (JArray items)) with true.
  unfold floor_is_self, lt_two, num_of_nat.
  rewrite Qfloor_inject_Z.
  assert (Qeq_bool (inject_Z (Z.of_nat (length items))) (inject_Z (Z.of_nat (length items))) = true) as ->
    by (apply Qeq_bool_iff; reflexivity).
  assert (Qle_bool 2 (inject_Z (Z.of_nat (length items))) = true) as ->; [|done].
  apply Qle_bool_iff. unfold Qle. cbn. lia.
Qed.

End Validation.

(* ===================================================================== *)
(** ** parseYargs (lines 20-38) *)
(* ===================================================================== *)

Lemma collab_actions_called {A} (now : A → M unit) later acts e w :
  (collab_actions now later acts e true w).1.1 = true.
Proof.
  revert w. induction acts as [|[a|a] rest IH]; intros w; cbn.
  - by destruct e.
  - destruct (now a w) as [[[]|err] w1]; [apply IH|done].
  - apply IH.
Qed.

Lemma collab_actions_entered {A} (now : A → M unit) later acts e called w a :
  Now a ∈ acts → (collab_actions now later acts e called w).1.1 = true.
Proof.
  revert called w. induction acts as [|[a'|a'] rest IH]; intros called w Hin; cbn.
  - by apply elem_of_nil in Hin.
  - destruct (now a' w) as [[[]|err] w1]; [apply collab_actions_called|done].
  - apply IH. apply elem_of_cons in Hin as [Heq|Hin]; [done|exact Hin].
Qed.

Lemma collab_actions_throws {A} (now : A → M unit) later acts e called w :
  ∃ e', (collab_actions now later acts (Throws e) called w).1.2 = Throw e'.
Proof.
  revert called w. induction acts as [|[a|a] rest IH]; intros called w; cbn.
  - by eexists.
  - destruct (now a w) as [[[]|err] w1]; [apply IH|by eexists].
  - apply IH.
Qed.

Lemma collab_actions_not_entered {A} (now : A → M unit) later acts e w :
  (∀ a, Now a ∉ acts) →
  let r := collab_actions now later acts e false w in
  r.1 = (false, match e with Returns => Ret tt | Throws err => Throw err end)
  ∧ trace r.2 = trace w.
Proof.
  revert w. induction acts as [|[a|a] rest IH]; intros w Hnone; cbn.
  - by destruct e.
  - destruct (Hnone a). apply list_elem_of_here.
  - destruct (IH (mkWorld (trace w) (queue w ++ [later a]) (promises w) (main_is_module w)))
      as [H1 H2]; [|done].
    intros a' Ha'. apply (Hnone a'). by apply list_elem_of_further.
Qed.

Lemma collab_actions_deferred {A} (now : A → M unit) later before rest e called w :
  collab_actions now later ((Later <$> before) ++ rest) e called w
  = collab_actions now later rest e called (defer_all later before w).2.
Proof.
  revert w. induction before as [|a before IH]; intros w; [done|].
  cbn. rewrite IH. done.
Qed.

Lemma defer_all_returns {A} (later : A → Task) before w :
  defer_all later before w
  = (Ret tt, mkWorld (trace w) (queue w ++ (later <$> before)) (promises w) (main_is_module w)).
Proof.
  revert w. induction before as [|a before IH]; intros w.
  - cbn. rewrite app_nil_r. by destruct w.
  - change (defer_all later (a :: before) w)
      with (defer_all later before
              (mkWorld (trace w) (queue w ++ [later a]) (promises w) (main_is_module w))).
    rewrite IH. cbn. by rewrite <- app_assoc.
Qed.

Section ParseYargs.

(** C4, as amended.  When yargs throws during [parse] having fired the
    parse completion at most once during the call, the completion is run
    exactly once during the call, whatever yargs left for a later turn.
    If yargs fired none, parseYargs queues what yargs deferred and is
    then one run of the completion on the thrown error.  If yargs fired
    one, parseYargs is that one run, between the deferrals before and
    after it, followed by the throw, which reaches the caller.  If the
    completion itself threw while yargs was firing it, what it threw
    reaches the caller and nothing else is run.  The completions yargs
    deferred stay in the queue: they run on a later turn, in addition. *)
Theorem parseYargs_completion_once
    (yargs : YargsInstance) (args : list (option string))
    (callback : ParseArgs → M unit) (later : ParseArgs → Task)
    (e : Error) (w : World) :
  let w0 := (log (EvParse (y_config yargs) args) w).2 in
  (∀ before,
     y_parse yargs args = mkRun (Later <$> before) (Throws e) →
     parseYargs yargs args callback later w
     = (defer_all later before ;; callback (mkParseArgs (Some e) None None)) w0)
  ∧ (∀ before pa after,
     y_parse yargs args = mkRun ((Later <$> before) ++ Now pa :: (Later <$> after)) (Throws e) →
     parseYargs yargs args callback later w
     = (defer_all later before ;; callback pa ;; defer_all later after ;; throw e) w0)
  ∧ (∀ before pa rest how e' w',
       y_parse yargs args = mkRun ((Later <$> before) ++ Now pa :: rest) how →
       callback pa (defer_all later before w0).2 = (Throw e', w') →
       parseYargs yargs args callback later w = (Throw e', w'))
  ∧ (∀ before, queue (defer_all later before w0).2 = queue w ++ (later <$> before)).
Proof.
  intros w0. subst w0. unfold parseYargs. cbn [log fst snd]. repeat split.
  - intros before ->. cbn [actions fin].
    rewrite <- (app_nil_r (Later <$> before)), collab_actions_deferred.
    unfold mbind, M_bind, bind. rewrite defer_all_returns. done.
  - intros before pa after ->. cbn [actions fin].
    rewrite collab_actions_deferred.
    unfold mbind, M_bind, bind. rewrite defer_all_returns. cbn [snd fst].
    cbn [collab_actions].
    destruct (callback pa _) as [[[]|e'] w']; [|done].
    rewrite <- (app_nil_r (Later <$> after)), collab_actions_deferred.
    rewrite defer_all_returns. done.
  - intros before pa rest how e' w' -> Hcb. cbn [actions fin].
    rewrite collab_actions_deferred. cbn [collab_actions]. by rewrite Hcb.
  - intros before. by rewrite defer_all_returns.
Qed.

End ParseYargs.

(* ===================================================================== *)
(** ** The dispatch after a parse (lines 147-177) *)
(* ===================================================================== *)

Section Dispatch.
Context (env : Env).

(** C1. When validation passes and the parse succeeds with neither the
    help nor the version flag and exactly one positional argument, the
    wrapped module is called exactly once, with [files] the positional
    arguments and [verbosity] the verbose count minus the quiet count, and
    the completion signal carries exactly what the wrapped module
    reports: the callback receives it, and in the deferred style the
    Promise is settled by it.  This holds whether yargs and the module
    fire their completions at once or on a later turn. *)
Theorem single_positional_dispatch
    (args options : JSValue) (f : nat) (props : gmap string JSValue)
    (tokens : list (option string)) (st : Streams)
    (argOpts : Argv) (output : option string) (ca : CbArgs) (fuel : nat) :
  let cmdOpts := {| files := argv_positional argOpts;
                    verbosity := (argv_verbose argOpts - argv_quiet argOpts)%Z |} in
  validate env args options = inr (tokens, st) →
  parses_to env tokens argOpts output →
  argv_help argOpts = false →
  argv_version argOpts = false →
  length (argv_positional argOpts) = 1 →
  once ca (modulename env cmdOpts) →
  (let '(_, _, w) := invoke env (2 + fuel) args options (JFunction (HostFn f) props) in
   module_calls (trace w) = [cmdOpts]
   ∧ callbacks_of f (trace w) = [ca]
   ∧ queue w = [])
  ∧ (∀ callback,
       deferred_style env options callback →
       let '(r, _, w) := invoke env (2 + fuel) args options callback in
       r = Ret (RPromise 0)
       ∧ module_calls (trace w) = [cmdOpts]
       ∧ promises w = [report_state ca]
       ∧ queue w = []).
Proof.
  intros cmdOpts Hval [Hfin Hact] Hh Hv Hlen [Hmfin Hmact]. subst cmdOpts.
  split.
  - unfold invoke, modulenameCmd, modulenameCmd_body, parseYargs.
    destruct Hact as [Ha | Ha], Hmact as [Hm | Hm].
    all: run_js.
    all: try (rewrite decide_True by done).
    all: done.
  - intros callback (Ht & Ho & Hp).
    unfold invoke, modulenameCmd, new_Promise, modulenameCmd_body, parseYargs, report_state.
    destruct ca as [[e|] result].
    all: destruct Hact as [Ha | Ha], Hmact as [Hm | Hm].
    all: run_js.
    all: done.
Qed.

(** C2. When the parse succeeds with no terminal flag and the number of
    positional arguments is not one, the wrapped module is never called,
    the error stream receives exactly one message and the completion
    signal carries exit code 1. *)
Theorem positional_count_error
    (args options : JSValue) (f : nat) (props : gmap string JSValue)
    (tokens : list (option string)) (st : Streams)
    (argOpts : Argv) (output : option string) (fuel : nat) :
  let message := (opt_err st, "Error: Exactly one argument is required." +:+ LF) in
  validate env args options = inr (tokens, st) →
  parses_to env tokens argOpts output →
  argv_help argOpts = false →
  argv_version argOpts = false →
  length (argv_positional argOpts) ≠ 1 →
  (let '(_, _, w) := invoke env (1 + fuel) args options (JFunction (HostFn f) props) in
   module_calls (trace w) = []
   ∧ writes_to Err (trace w) = [message]
   ∧ callbacks_of f (trace w) = [mkCbArgs None (Some 1%Z)]
   ∧ queue w = [])
  ∧ (∀ callback,
       deferred_style env options callback →
       let '(r, _, w) := invoke env (1 + fuel) args options callback in
       r = Ret (RPromise 0)
       ∧ module_calls (trace w) = []
       ∧ writes_to Err (trace w) = [message]
       ∧ promises w = [Resolved (Some 1%Z)]
       ∧ queue w = []).
Proof.
  intros message Hval [Hfin Hact] Hh Hv Hlen. subst message.
  apply Nat.eqb_neq in Hlen.
  split.
  - unfold invoke, modulenameCmd, modulenameCmd_body, parseYargs.
    destruct Hact as [Ha | Ha].
    all: run_js.
    all: try (rewrite decide_True by done).
    all: done.
  - intros callback (Ht & Ho & Hp).
    unfold invoke, modulenameCmd, new_Promise, modulenameCmd_body, parseYargs.
    destruct Hact as [Ha | Ha].
    all: run_js.
    all: done.
Qed.

(** C3. When the parse succeeds with the help flag or the version flag
    set, the completion signal carries exit code 0, the text yargs
    rendered is written to the output stream, and the wrapped module is
    never called. *)
Theorem terminal_flag_exit_zero
    (args options : JSValue) (f : nat) (props : gmap string JSValue)
    (tokens : list (option string)) (st : Streams)
    (argOpts : Argv) (output : option string) (fuel : nat) :
  validate env args options = inr (tokens, st) →
  parses_to env tokens argOpts output →
  argv_help argOpts || argv_version argOpts = true →
  (let '(_, _, w) := invoke env (1 + fuel) args options (JFunction (HostFn f) props) in
   callbacks_of f (trace w) = [mkCbArgs None (Some 0%Z)]
   ∧ writes_to Out (trace w) = rendered st output
   ∧ writes_to Err (trace w) = []
   ∧ module_calls (trace w) = []
   ∧ queue w = [])
  ∧ (∀ callback,
       deferred_style env options callback →
       let '(r, _, w) := invoke env (1 + fuel) args options callback in
       r = Ret (RPromise 0)
       ∧ promises w = [Resolved (Some 0%Z)]
       ∧ writes_to Out (trace w) = rendered st output
       ∧ writes_to Err (trace w) = []
       ∧ module_calls (trace w) = []
       ∧ queue w = []).
Proof.
  intros Hval [Hfin Hact] Hflag.
  split.
  - unfold invoke, modulenameCmd, modulenameCmd_body, parseYargs, rendered.
    destruct Hact as [Ha | Ha].
    all: run_js.
    all: try (rewrite decide_True by done).
    all: done.
  - intros callback (Ht & Ho & Hp).
    unfold invoke, modulenameCmd, new_Promise, modulenameCmd_body, parseYargs, rendered.
    destruct Hact as [Ha | Ha].
    all: run_js.
    all: done.
Qed.

(** C6. When the parse fails, the error stream receives the text yargs
    rendered if there is any and the error's name and message otherwise,
    the completion signal carries exit code 1, and the wrapped module is
    never called. *)
Theorem parse_error_exit_one
    (args options : JSValue) (f : nat) (props : gmap string JSValue)
    (tokens : list (option string)) (st : Streams)
    (err : Error) (output : option string) (fuel : nat) :
  let message :=
    (opt_err st,
     match nonempty output with
     | Some text => text +:+ LF
     | None => err_name err +:+ ": " +:+ err_message err +:+ LF
     end) in
  validate env args options = inr (tokens, st) →
  parse_fails env tokens err output →
  (let '(_, _, w) := invoke env (1 + fuel) args options (JFunction (HostFn f) props) in
   writes_to Err (trace w) = [message]
   ∧ writes_to Out (trace w) = []
   ∧ callbacks_of f (trace w) = [mkCbArgs None (Some 1%Z)]
   ∧ module_calls (trace w) = []
   ∧ queue w = [])
  ∧ (∀ callback,
       deferred_style env options callback →
       let '(r, _, w) := invoke env (1 + fuel) args options callback in
       r = Ret (RPromise 0)
       ∧ writes_to Err (trace w) = [message]
       ∧ writes_to Out (trace w) = []
       ∧ promises w = [Resolved (Some 1%Z)]
       ∧ module_calls (trace w) = []
       ∧ queue w = []).
Proof.
  intros message Hval Hfail. subst message.
  split.
  - unfold invoke, modulenameCmd, modulenameCmd_body, parseYargs.
    destruct Hfail as [[argOpts [Hfin [Ha | Ha]]] | [Hrun ->]].
    all: run_js.
    all: try (rewrite decide_True by done).
    all: done.
  - intros callback (Ht & Ho & Hp).
    unfold invoke, modulenameCmd, new_Promise, modulenameCmd_body, parseYargs.
    destruct Hfail as [[argOpts [Hfin [Ha | Ha]]] | [Hrun ->]].
    all: run_js.
    all: done.
Qed.

End Dispatch.

(* ===================================================================== *)
(** ** Validation (lines 86-125) *)
(* ===================================================================== *)

Section Validated.
Context (env : Env).



Lemma validate_not_array_like args options :
  args ≠ JUndefined → args ≠ JNull →
  is_object args = false ∨ floor_is_self (get_prop args "length") = false →
  validate env args options = inl (TypeError "args must be Array-like").
Proof.
  intros Hu Hn Hbad. unfold validate, normalize_args.
  assert (negb (is_object args) || negb (floor_is_self (get_prop args "length")) = true) as ->.
  { destruct Hbad as [-> | ->]; [done|]. by rewrite orb_true_r. }
  by destruct args.
Qed.

Lemma validate_options_not_object args options tokens :
  normalize_args env args = inr tokens →
  is_undefined options = false → is_object options = false →
  validate env args options = inl (TypeError "options must be an object").
Proof.
  intros Hargs Hu Ho. unfold validate, resolve_streams. by rewrite Hargs, Hu, Ho.
Qed.

Lemma validate_bad_stream args options tokens err :
  normalize_args env args = inr tokens →
  resolve_streams options = inl err →
  validate env args options = inl err.
Proof. intros Hargs Hs. unfold validate. by rewrite Hargs, Hs. Qed.

Lemma modulenameCmd_callable args options c props :
  modulenameCmd env args options (JFunction c props)
  = (modulenameCmd_body env args options c ;; ret RUndefined).
Proof. reflexivity. Qed.


(** C8. With a callable callback, a validation failure of any kind is
    not thrown to the caller: the call returns undefined having done
    nothing but queue the report for the next tick, and on that tick the
    callback receives the error. *)
Theorem validation_failure_deferred
    (args options : JSValue) (f : nat) (props : gmap string JSValue)
    (err : Error) (w : World) (fuel : nat) :
  validate env args options = inl err →
  modulenameCmd env args options (JFunction (HostFn f) props) w
    = (Ret RUndefined, (enqueue (TkCallbackErr (HostFn f) err) w).2)
  ∧ let '(r, _, w2) := invoke env (1 + fuel) args options (JFunction (HostFn f) props) in
    r = Ret RUndefined
    ∧ trace w2 = [EvCallback f (mkCbArgs (Some err) None)]
    ∧ queue w2 = [].
Proof.
  intros Hval. split.
  - unfold modulenameCmd, modulenameCmd_body. cbn. rewrite Hval. done.
  - unfold invoke, modulenameCmd, modulenameCmd_body. run_js; done.
Qed.


End Validated.

(* ===================================================================== *)
(** ** The calling forms (lines 67-71) *)
(* ===================================================================== *)

Section Forms.
Context (env : Env).

Lemma resolve_streams_null : resolve_streams JNull = inr default_streams.
Proof. vm_compute. reflexivity. Qed.

Lemma resolve_streams_undefined : resolve_streams JUndefined = inr default_streams.
Proof. vm_compute. reflexivity. Qed.

(** C10. Called as [modulenameCmd(args, f)] with [f] a function and no
    third argument, the entry point does exactly what
    [modulenameCmd(args, null, f)] does, which is also what it does when
    the options are left undefined: [f] is the completion callback and
    the three streams are the process-wide ones. *)
Theorem two_argument_form (args : JSValue) (c : Callable) (props : gmap string JSValue) (w : World) :
  modulenameCmd env args (JFunction c props) JUndefined w
  = modulenameCmd env args JNull (JFunction c props) w
  ∧ modulenameCmd env args (JFunction c props) JUndefined w
    = modulenameCmd env args JUndefined (JFunction c props) w
  ∧ resolve_streams JNull = inr default_streams.
Proof.
  split; [reflexivity|]. split; [|apply resolve_streams_null].
  unfold modulenameCmd. cbn. unfold modulenameCmd_body, validate.
  by rewrite resolve_streams_null, resolve_streams_undefined.
Qed.
End Forms.

(* ===================================================================== *)
(** ** When the entry point throws (lines 73-84) *)
(* ===================================================================== *)

Lemma returns_ret {A} (a : A) : returns (ret a).
Proof. intros w. eauto. Qed.

Lemma returns_log ev : returns (log ev).
Proof. intros w. eauto. Qed.

Lemma returns_settle p s : returns (settle p s).
Proof. intros w. eauto. Qed.

Lemma returns_bind {A B} (m : M A) (k : A → M B) :
  returns m → (∀ a, returns (k a)) → returns (m ≫= k).
Proof.
  intros Hm Hk w. unfold mbind, M_bind, bind.
  destruct (Hm w) as (a & w' & ->). apply Hk.
Qed.

Lemma collab_actions_returns {A} (now : A → M unit) later acts called w :
  (∀ a, Now a ∈ acts → returns (now a)) →
  ∃ b w', collab_actions now later acts Returns called w = (b, Ret tt, w').
Proof.
  revert called w. induction acts as [|[a|a] rest IH]; intros called w Hnow; cbn.
  - eauto.
  - destruct (Hnow a (list_elem_of_here _ _) w) as ([] & w' & ->).
    apply IH. intros a' Ha'. apply Hnow. by apply list_elem_of_further.
  - apply IH. intros a' Ha'. apply Hnow. by apply list_elem_of_further.
Qed.

Lemma collab_actions_no_now {A} (now : A → M unit) later acts e w :
  (∀ a, Now a ∉ acts) →
  ∃ w', collab_actions now later acts e false w
        = (false, match e with Returns => Ret tt | Throws err => Throw err end, w').
Proof.
  revert w. induction acts as [|[a|a] rest IH]; intros w Hnone; cbn.
  - destruct e; by eexists.
  - destruct (Hnone a). apply list_elem_of_here.
  - apply IH. intros a' Ha'. apply (Hnone a'). by apply list_elem_of_further.
Qed.

Section Safety.
Context (env : Env).

Lemma call_callback_returns cb a :
  safe_callback env cb → returns (call_callback env cb a).
Proof.
  intros Hsafe. destruct cb as [f|p]; cbn.
  - apply returns_bind; [apply returns_log|]. intros _.
    rewrite (Hsafe f eq_refl a). apply returns_ret.
  - destruct (c_err a); apply returns_settle.
Qed.

Lemma call_modulename_returns cmdOpts cb :
  safe_callback env cb → module_returns env → returns (call_modulename env cmdOpts cb).
Proof.
  intros Hsafe Hmod w. unfold call_modulename. cbn. rewrite Hmod.
  edestruct (collab_actions_returns (call_callback env cb) (TkModuleDone cb)) as (b & w' & ->).
  { intros a _. by apply call_callback_returns. }
  cbn. exists tt, w'. reflexivity.
Qed.

Lemma on_parsed_returns st cb pa :
  safe_callback env cb → module_returns env →
  (p_err pa = None → is_Some (p_argv pa)) →
  returns (on_parsed env st cb pa).
Proof.
  intros Hsafe Hmod Hargv. unfold on_parsed.
  destruct (p_err pa).
  - apply returns_bind; [apply returns_log|]. intros _. by apply call_callback_returns.
  - destruct (Hargv eq_refl) as [argOpts ->].
    apply returns_bind.
    { destruct (nonempty _); [apply returns_log|apply returns_ret]. }
    intros _. destruct (_ || _); [by apply call_callback_returns|].
    destruct (negb _); [|by apply call_modulename_returns].
    apply returns_bind; [apply returns_log|]. intros _. by apply call_callback_returns.
Qed.

Lemma parseYargs_returns tokens st cb :
  safe_callback env cb → module_returns env → yargs_orderly env →
  returns (parseYargs (new_Yargs env) tokens (on_parsed env st cb) (TkParsed st cb)).
Proof.
  intros Hsafe Hmod Hy w. unfold parseYargs. cbn -[yargs_config].
  destruct (Hy tokens) as [Hfin Hargv].
  destruct Hfin as [Hfin | Hnone].
  - rewrite Hfin.
    edestruct (collab_actions_returns (on_parsed env st cb) (TkParsed st cb)) as (b & w' & ->).
    { intros pa Hpa. apply on_parsed_returns; [done..|]. by apply Hargv. }
    destruct b; cbn; eauto.
  - edestruct (collab_actions_no_now (on_parsed env st cb) (TkParsed st cb)) as (w' & ->);
      [exact Hnone|].
    destruct (fin _) as [|e]; [eauto|].
    apply (on_parsed_returns st cb (mkParseArgs (Some e) None None)); done.
Qed.

Lemma modulenameCmd_body_returns args options cb :
  safe_callback env cb → module_returns env → yargs_orderly env →
  returns (modulenameCmd_body env args options cb).
Proof.
  intros Hsafe Hmod Hy. unfold modulenameCmd_body.
  destruct (validate env args options) as [err|[tokens st]].
  - intros w. eauto.
  - apply returns_bind; [intros w; eauto|]. intros _.
    by apply parseYargs_returns.
Qed.

Lemma new_Promise_returns {A} (executor : nat → M A) : returns (new_Promise executor).
Proof.
  intros w. unfold new_Promise.
  destruct (executor _ _) as [[a|e] w']; eauto.
Qed.

(** C9, as amended.  The entry point throws
    TypeError('callback must be a function') at once, touching nothing,
    whenever the callback is truthy and not a function, or is falsy while
    the options are not a function either and no Promise is available.
    In every other case it returns, provided the collaborators keep to
    their side (the callback does not throw, the wrapped module does not
    throw out of its call, yargs does not throw after firing its
    completion, and yargs hands over its argv object whenever it reports
    no error); and a falsy callback with a Promise available always gets
    the fresh Promise back.  Where they do not, with a function as the
    callback and arguments that pass validation: what the parse
    completion throws while yargs fires it, first thing in [parse],
    reaches the caller as it is; and if yargs throws after firing the
    completion during [parse], the call throws. *)
Theorem callback_type_error (args options callback : JSValue) :
  (callback_rejected env options callback = true →
     ∀ w, modulenameCmd env args options callback w
          = (Throw (TypeError "callback must be a function"), w))
  ∧ (callback_rejected env options callback = false →
     (∀ f props, effective_callback options callback = JFunction (HostFn f) props →
                 never_throws env f) →
     module_returns env →
     yargs_orderly env →
     ∀ w, ∃ r w', modulenameCmd env args options callback w = (Ret r, w'))
  ∧ (deferred_style env options callback →
     ∀ w, ∃ w', modulenameCmd env args options callback w
                = (Ret (RPromise (length (promises w))), w'))
  ∧ (∀ cb props tokens st pa rest how e' w w',
     validate env args options = inr (tokens, st) →
     Yargs env (yargs_config env) tokens = mkRun (Now pa :: rest) how →
     on_parsed env st cb pa
       (log (EvParse (yargs_config env) tokens) (set_require_main w).2).2 = (Throw e', w') →
     modulenameCmd env args options (JFunction cb props) w = (Throw e', w'))
  ∧ (∀ cb props tokens st acts e pa w,
     validate env args options = inr (tokens, st) →
     Yargs env (yargs_config env) tokens = mkRun acts (Throws e) →
     Now pa ∈ acts →
     ∃ e' w', modulenameCmd env args options (JFunction cb props) w = (Throw e', w')).
Proof.
  unfold callback_rejected, effective_callback.
  split; [|split; [|split; [|split]]].
  4: {
    intros cb props tokens st pa rest how e' w w' Hval Hrun Hcb.
    rewrite modulenameCmd_callable. unfold modulenameCmd_body. rewrite Hval.
    unfold mbind, M_bind, bind, parseYargs, new_Yargs. cbn [y_parse y_config].
    rewrite Hrun. cbn [actions fin collab_actions].
    cbn [set_require_main log fst snd] in *. by rewrite Hcb. }
  4: {
    intros cb props tokens st acts e pa w Hval Hrun Hin.
    rewrite modulenameCmd_callable. unfold modulenameCmd_body. rewrite Hval.
    unfold mbind, M_bind, bind, parseYargs, new_Yargs. cbn [y_parse y_config].
    rewrite Hrun. cbn [actions fin set_require_main log fst snd].
    match goal with |- context [collab_actions ?n ?l acts ?f false ?w0] =>
      pose proof (collab_actions_entered n l acts f false w0 pa Hin) as Hc;
      pose proof (collab_actions_throws n l acts e false w0) as [e' He'];
      destruct (collab_actions n l acts f false w0) as [[b o] w1] end.
    cbn in Hc, He'. subst b o. by eexists _, _. }
  all: unfold modulenameCmd.
  - intros Hrej w.
    destruct (truthy callback) eqn:Ht; cbn in *.
    + rewrite orb_false_r in Hrej. rewrite Ht. cbn. by destruct callback.
    + destruct (is_function options) eqn:Ho; [done|].
      destruct (promise_available env); [done|]. cbn. rewrite Ht. cbn.
      by destruct callback.
  - intros Hrej Hsafe Hmod Hy.
    assert (returns (modulenameCmd env args options callback)) as Hret; [|exact Hret].
    unfold modulenameCmd.
    destruct (truthy callback) eqn:Ht; cbn in *.
    + rewrite orb_false_r in Hrej.
      destruct callback as [| | | | |c props| |]; try done.
      apply returns_bind; [|intros; apply returns_ret].
      apply modulenameCmd_body_returns; [|done..].
      intros f ->. by eapply Hsafe.
    + destruct (is_function options) eqn:Ho; cbn in *.
      * destruct options as [| | | | |c props| |]; try done. cbn.
        apply returns_bind; [|intros; apply returns_ret].
        apply modulenameCmd_body_returns; [|done..].
        intros f ->. by eapply Hsafe.
      * rewrite Ht. cbn. destruct (promise_available env); [|done].
        apply returns_bind; [apply new_Promise_returns|intros; apply returns_ret].
  - intros (Ht & Ho & Hp) w. rewrite Ht, Ho, Hp. cbn. rewrite Ht. cbn.
    unfold mbind, M_bind, bind, new_Promise.
    destruct (modulenameCmd_body _ _ _ _ _) as [[[]|e] w']; by eexists.
Qed.

End Safety.

(* ===================================================================== *)
(** ** The deferred style (lines 73-80) *)
(* ===================================================================== *)

Lemma non_callback_app t1 t2 : non_callback (t1 ++ t2) = non_callback t1 ++ non_callback t2.
Proof. apply List.filter_app. Qed.

Lemma settle_all_app l1 l2 c : settle_all (l1 ++ l2) c = settle_all l2 (settle_all l1 c).
Proof. apply foldl_app. Qed.

Lemma settle_all_cons a l c :
  settle_all (a :: l) c = settle_all l (settle_cell (report_state a) c).
Proof. reflexivity. Qed.

Lemma settle_all_settled l c : c ≠ Pending → settle_all l c = c.
Proof.
  revert c. induction l as [|a l IH]; intros c Hc; [done|].
  rewrite settle_all_cons, IH; by destruct c.
Qed.

Lemma report_state_settled a : report_state a ≠ Pending.
Proof. unfold report_state. by destruct (c_err a). Qed.

Lemma settle_all_pending l : settle_all l Pending = settled_by l.
Proof.
  destruct l as [|a l]; [done|]. rewrite settle_all_cons. cbn.
  apply settle_all_settled, report_state_settled.
Qed.

Section Simulation.
Context (env : Env) (f : nat) (Hf : never_throws env f).

Lemma sim_ret {A} (a : A) : sim f (ret a) (ret a).
Proof. intros wc wp HR. cbn. split; [done|]. split; [done|]. exists []. by rewrite app_nil_r. Qed.

Lemma sim_throw {A} e : sim f (@throw A e) (throw e).
Proof. intros wc wp HR. cbn. split; [done|]. split; [done|]. exists []. by rewrite app_nil_r. Qed.

Lemma sim_bind {A B} (mc mp : M A) (kc kp : A → M B) :
  sim f mc mp → (∀ a, sim f (kc a) (kp a)) → sim f (mc ≫= kc) (mp ≫= kp).
Proof.
  intros Hm Hk wc wp HR. unfold mbind, M_bind, bind.
  destruct (Hm wc wp HR) as (Ho & HR' & new1 & Hcb1 & Hcell1).
  destruct (mc wc) as [oc wc'], (mp wp) as [op wp']. cbn in *. subst op.
  destruct oc as [a|e].
  - destruct (Hk a wc' wp' HR') as (Ho2 & HR2 & new2 & Hcb2 & Hcell2).
    split; [done|]. split; [done|]. exists (new1 ++ new2).
    rewrite Hcb2, Hcb1, Hcell2, Hcell1, settle_all_app. by rewrite app_assoc.
  - cbn. split; [done|]. split; [done|]. by exists new1.
Qed.

Lemma sim_log ev : is_callback_event ev = false → sim f (log ev) (log ev).
Proof.
  intros Hev wc wp (Ht & Hq & Hall & Hm & Hp). unfold log. world_simpl.
  split; [done|]. split.
  - repeat split; try done. world_simpl. rewrite non_callback_app, Ht. cbn. by rewrite Hev.
  - exists []. rewrite callbacks_of_app, app_nil_r. split; [|done].
    destruct ev; try done; apply app_nil_r.
Qed.

Lemma sim_enqueue t :
  task_callback t = HostFn f → sim f (enqueue t) (enqueue (retarget (Settler 0) t)).
Proof.
  intros Ht wc wp (Htr & Hq & Hall & Hm & Hp). cbn.
  split; [done|]. split.
  - repeat split; try done; cbn.
    + by rewrite fmap_app, Hq.
    + apply Forall_app. split; [done|]. by apply Forall_singleton.
  - exists []. by rewrite app_nil_r.
Qed.

Lemma sim_set_require_main : sim f set_require_main set_require_main.
Proof.
  intros wc wp (Htr & Hq & Hall & Hm & Hp). cbn.
  split; [done|]. split; [done|]. exists []. by rewrite app_nil_r.
Qed.

Lemma sim_call_callback a :
  sim f (call_callback env (HostFn f) a) (call_callback env (Settler 0) a).
Proof.
  intros wc wp (Htr & Hq & Hall & Hm & Hp).
  assert (call_callback env (Settler 0) a = settle 0 (report_state a)) as ->.
  { unfold call_callback, report_state. by destruct (c_err a). }
  unfold call_callback, mbind, M_bind, bind, log, settle. rewrite Hf.
  unfold ret. world_simpl.
  destruct (promises wp) as [|c [|c' ps]] eqn:Hps; try done.
  split; [done|]. split.
  - repeat split; try done. world_simpl. rewrite non_callback_app, Htr. cbn. by rewrite app_nil_r.
  - exists [a]. rewrite callbacks_of_app. split.
    + cbn. by rewrite decide_True.
    + unfold cell_of. world_simpl. by rewrite Hps.
Qed.

Lemma sim_write r st text : sim f (write r st text) (write r st text).
Proof. by apply sim_log. Qed.

Lemma sim_collab_actions {A} (nowc nowp : A → M unit) (laterc laterp : A → Task)
    acts e called wc wp :
  (∀ a, sim f (nowc a) (nowp a)) →
  (∀ a, task_callback (laterc a) = HostFn f
        ∧ laterp a = retarget (Settler 0) (laterc a)) →
  sim_rel f wc wp →
  let rc := collab_actions nowc laterc acts e called wc in
  let rp := collab_actions nowp laterp acts e called wp in
  rp.1 = rc.1
  ∧ sim_rel f rc.2 rp.2
  ∧ ∃ new, callbacks_of f (trace rc.2) = callbacks_of f (trace wc) ++ new
           ∧ cell_of rp.2 = settle_all new (cell_of wp).
Proof.
  intros Hnow Hlater. revert called wc wp.
  induction acts as [|[a|a] rest IH]; intros called wc wp HR; cbn.
  - destruct e; (split; [done|]; split; [done|]; exists []; by rewrite app_nil_r).
  - destruct (Hnow a wc wp HR) as (Ho & HR' & new1 & Hcb1 & Hcell1).
    destruct (nowc a wc) as [oc wc'], (nowp a wp) as [op wp']. cbn in *. subst op.
    destruct oc as [[]|err].
    + destruct (IH true wc' wp' HR') as (Ho2 & HR2 & new2 & Hcb2 & Hcell2).
      split; [done|]. split; [done|]. exists (new1 ++ new2).
      rewrite Hcb2, Hcb1, Hcell2, Hcell1, settle_all_app. by rewrite app_assoc.
    + cbn. split; [done|]. split; [done|]. by exists new1.
  - destruct (Hlater a) as [Hcb ->].
    destruct (sim_enqueue (laterc a) Hcb wc wp HR) as (_ & HR' & new1 & Hcb1 & Hcell1).
    cbn in HR', Hcb1, Hcell1.
    match goal with |- context [collab_actions nowc laterc rest e called ?w1] =>
      match goal with |- context [collab_actions nowp _ rest e called ?w2] =>
        destruct (IH called w1 w2 HR') as (Ho2 & HR2 & new2 & Hcb2 & Hcell2)
      end end.
    split; [done|]. split; [done|]. exists new2. done.
Qed.

Lemma sim_call_modulename cmdOpts :
  sim f (call_modulename env cmdOpts (HostFn f)) (call_modulename env cmdOpts (Settler 0)).
Proof.
  intros wc wp HR. unfold call_modulename.
  destruct (sim_log (EvModule cmdOpts) eq_refl wc wp HR) as (_ & HR' & new1 & Hcb1 & Hcell1).
  destruct (log (EvModule cmdOpts) wc) as [o1 wc1], (log (EvModule cmdOpts) wp) as [o2 wp1].
  cbn in HR', Hcb1, Hcell1.
  pose proof (sim_collab_actions (call_callback env (HostFn f)) (call_callback env (Settler 0))
                (TkModuleDone (HostFn f)) (TkModuleDone (Settler 0))
                (actions (modulename env cmdOpts)) (fin (modulename env cmdOpts)) false wc1 wp1
                sim_call_callback (λ a, conj eq_refl eq_refl) HR') as (Ho & HR2 & new2 & Hcb2 & Hcell2).
  destruct (collab_actions _ _ _ _ _ wc1) as [[bc oc] wc2].
  destruct (collab_actions _ _ _ _ _ wp1) as [[bp op] wp2].
  cbn in *. injection Ho as -> ->.
  split; [done|]. split; [done|]. exists (new1 ++ new2).
  rewrite Hcb2, Hcb1, Hcell2, Hcell1, settle_all_app. by rewrite app_assoc.
Qed.

Lemma sim_on_parsed st pa :
  sim f (on_parsed env st (HostFn f) pa) (on_parsed env st (Settler 0) pa).
Proof.
  unfold on_parsed. destruct (p_err pa).
  - apply sim_bind; [apply sim_write|]. intros _. apply sim_call_callback.
  - apply sim_bind.
    { destruct (nonempty _); [apply sim_write|apply sim_ret]. }
    intros _. destruct (p_argv pa); [|apply sim_throw].
    destruct (_ || _); [apply sim_call_callback|].
    destruct (negb _); [|apply sim_call_modulename].
    apply sim_bind; [apply sim_write|]. intros _. apply sim_call_callback.
Qed.

Lemma sim_parseYargs yargs tokens st :
  sim f (parseYargs yargs tokens (on_parsed env st (HostFn f)) (TkParsed st (HostFn f)))
        (parseYargs yargs tokens (on_parsed env st (Settler 0)) (TkParsed st (Settler 0))).
Proof.
  intros wc wp HR. unfold parseYargs.
  set (ev := EvParse (y_config yargs) tokens).
  destruct (sim_log ev eq_refl wc wp HR) as (_ & HR' & new1 & Hcb1 & Hcell1).
  destruct (log ev wc) as [o1 wc1], (log ev wp) as [o2 wp1].
  cbn in HR', Hcb1, Hcell1.
  pose proof (sim_collab_actions (on_parsed env st (HostFn f)) (on_parsed env st (Settler 0))
                (TkParsed st (HostFn f)) (TkParsed st (Settler 0))
                (actions (y_parse yargs tokens)) (fin (y_parse yargs tokens)) false wc1 wp1
                (sim_on_parsed st) (λ a, conj eq_refl eq_refl) HR') as (Ho & HR2 & new2 & Hcb2 & Hcell2).
  destruct (collab_actions _ _ _ _ _ wc1) as [[bc oc] wc2].
  destruct (collab_actions _ _ _ _ _ wp1) as [[bp op] wp2].
  world_simpl. injection Ho as -> ->.
  assert (∃ new, callbacks_of f (trace wc2) = callbacks_of f (trace wc) ++ new
                 ∧ cell_of wp2 = settle_all new (cell_of wp)) as Hnew.
  { exists (new1 ++ new2).
    rewrite Hcb2, Hcb1, Hcell2, Hcell1, settle_all_app. by rewrite app_assoc. }
  destruct oc as [[]|err]; [by destruct bc|].
  destruct bc; [done|].
  destruct (sim_on_parsed st (mkParseArgs (Some err) None None) wc2 wp2 HR2)
    as (Ho3 & HR3 & new3 & Hcb3 & Hcell3).
  split; [done|]. split; [done|].
  destruct Hnew as (new & Hcb & Hcell). exists (new ++ new3).
  rewrite Hcb3, Hcb, Hcell3, Hcell, settle_all_app. by rewrite app_assoc.
Qed.

Lemma sim_body args options :
  sim f (modulenameCmd_body env args options (HostFn f))
        (modulenameCmd_body env args options (Settler 0)).
Proof.
  unfold modulenameCmd_body. destruct (validate env args options) as [err|[tokens st]].
  - by apply (sim_enqueue (TkCallbackErr (HostFn f) err)).
  - apply sim_bind; [apply sim_set_require_main|]. intros _. apply sim_parseYargs.
Qed.

Lemma sim_run_task t :
  task_callback t = HostFn f → sim f (run_task env t) (run_task env (retarget (Settler 0) t)).
Proof.
  destruct t as [cb e|st cb pa|cb ca]; cbn; intros ->.
  - apply sim_call_callback.
  - apply sim_on_parsed.
  - apply sim_call_callback.
Qed.

Lemma sim_run_loop fuel : sim f (run_loop env fuel) (run_loop env fuel).
Proof.
  induction fuel as [|n IH]; intros wc wp HR.
  - cbn. split; [done|]. split; [done|]. exists []. by rewrite app_nil_r.
  - cbn. unfold pop_task.
    destruct HR as (Htr & Hq & Hall & Hm & Hp). rewrite Hq.
    destruct (queue wc) as [|t rest] eqn:Hqc; cbn.
    + split; [done|]. split; [by rewrite <- Hqc in *|]. exists []. by rewrite app_nil_r.
    + apply Forall_cons in Hall as [Ht Hrest].
      set (wc0 := mkWorld (trace wc) rest (promises wc) (main_is_module wc)).
      set (wp0 := mkWorld (trace wp) (retarget (Settler 0) <$> rest) (promises wp) (main_is_module wp)).
      assert (sim_rel f wc0 wp0) as HR0 by done.
      destruct (sim_run_task t Ht wc0 wp0 HR0) as (Ho & HR' & new1 & Hcb1 & Hcell1).
      destruct (run_task env t wc0) as [oc wc'], (run_task env _ wp0) as [op wp'].
      cbn in *. subst op. destruct oc as [[]|err].
      * destruct (IH wc' wp' HR') as (Ho2 & HR2 & new2 & Hcb2 & Hcell2).
        split; [done|]. split; [done|]. exists (new1 ++ new2).
        rewrite Hcb2, Hcb1, Hcell2, Hcell1, settle_all_app. by rewrite app_assoc.
      * split; [done|]. split; [done|]. by exists new1.
Qed.

(** C5. With a falsy callback, options that are not a function and a
    Promise primitive available, the entry point returns a fresh Promise
    and does what the callback form does with the same arguments, minus
    the calls of the callback: the Promise ends up settled by the first
    report the callback form makes to a callback [f] that merely
    listens, resolved with its exit code or rejected with its error (and
    rejected with whatever the callback form throws to its caller, if it
    throws before reporting). *)
Theorem deferred_wraps_callback_form (args options callback : JSValue) (fuel : nat) :
  deferred_style env options callback →
  (∀ w, modulenameCmd env args options callback w
        = (p ← new_Promise (λ p, modulenameCmd env args options (JFunction (Settler p) ∅));
           ret (RPromise p)) w)
  ∧ let '(rc, w1) := modulenameCmd env args options (JFunction (HostFn f) ∅) init_world in
    let '(lc, w2) := run_loop env fuel w1 in
    let '(rp, lp, wp) := invoke env fuel args options callback in
    rp = Ret (RPromise 0)
    ∧ promises wp =
        [match rc with
         | Ret _ => settled_by (callbacks_of f (trace w2))
         | Throw e => match callbacks_of f (trace w1) with
                      | [] => Rejected e
                      | a :: _ => report_state a
                      end
         end]
    ∧ trace wp = non_callback (trace w2)
    ∧ lp = lc.
Proof.
  intros (Ht & Ho & Hp). split.
  { intros w. unfold modulenameCmd. rewrite Ht, Ho, Hp. cbn [truthy negb andb].
    rewrite Ht. cbn [negb andb].
    unfold mbind, M_bind, bind, new_Promise.
    by destruct (modulenameCmd_body _ _ _ _ _) as [[[]|e] w']. }
  unfold invoke, modulenameCmd. rewrite Ht, Ho, Hp. cbn [truthy negb andb].
  rewrite Ht. cbn [negb andb].
  unfold mbind, M_bind, bind, new_Promise, ret, init_world. world_simpl.
  cbn [length app].
  set (w0 := mkWorld [] [] [Pending] false).
  assert (sim_rel f (mkWorld [] [] [] false) w0) as HR0.
  { repeat split; try done. }
  destruct (sim_body args options _ _ HR0) as (Hob & HRb & new1 & Hcb1 & Hcell1).
  destruct (modulenameCmd_body env args options (HostFn f) _) as [oc wc1].
  destruct (modulenameCmd_body env args options (Settler 0) _) as [op wp1].
  world_simpl. subst op. cbn in Hcb1. change (cell_of w0) with Pending in Hcell1.
  rewrite settle_all_pending in Hcell1.
  destruct oc as [[]|e].
  - destruct (sim_run_loop fuel wc1 wp1 HRb) as (Hol & HRl & new2 & Hcb2 & Hcell2).
    destruct (run_loop env fuel wc1) as [lc wc2], (run_loop env fuel wp1) as [lp wp2].
    world_simpl. subst lp.
    destruct HRl as (Htr & _ & _ & _ & Hlen).
    repeat split; try done.
    rewrite Hcb2, Hcb1, <- settle_all_pending, settle_all_app, settle_all_pending.
    rewrite <- Hcell1, <- Hcell2. unfold cell_of.
    by destruct (promises wp2) as [|c [|c' ps]].
  - unfold mbind, M_bind, bind, settle. world_simpl.
    set (wp1' := mkWorld _ _ _ _).
    assert (sim_rel f wc1 wp1') as HRb'.
    { destruct HRb as (? & ? & ? & ? & Hlen). repeat split; try done.
      subst wp1'. world_simpl. by rewrite length_alter. }
    destruct (sim_run_loop fuel wc1 wp1' HRb') as (Hol & HRl & new2 & Hcb2 & Hcell2).
    destruct (run_loop env fuel wc1) as [lc wc2], (run_loop env fuel wp1') as [lp wp2].
    world_simpl. subst lp.
    destruct HRl as (Htr & _ & _ & _ & Hlen).
    repeat split; try done.
    assert (cell_of wp1' = match callbacks_of f (trace wc1) with
                           | [] => Rejected e
                           | a :: _ => report_state a
                           end) as Hc.
    { subst wp1'. unfold cell_of in *. world_simpl.
      destruct HRb as (_ & _ & _ & _ & Hlen1).
      destruct (promises wp1) as [|c [|c' ps]]; try done. cbn in *.
      rewrite Hcell1, Hcb1. destruct new1 as [|a l]; [done|]. cbn.
      pose proof (report_state_settled a). by destruct (report_state a). }
    rewrite settle_all_settled in Hcell2.
    + rewrite <- Hc, <- Hcell2. unfold cell_of.
      by destruct (promises wp2) as [|c [|c' ps]].
    + rewrite Hc. destruct (callbacks_of f (trace wc1)); [done|apply report_state_settled].
Qed.

End Simulation.

(* ===================================================================== *)
(** ** Which streams are used (lines 98-119) *)
(* ===================================================================== *)

Lemma assign_defaults_lookup props k d :
  default_options !! k = Some d →
  default JUndefined (assign default_options (JObject props) !! k) = chosen props k d.
Proof.
  intros Hd. unfold assign, chosen. cbn. rewrite lookup_union, Hd.
  by destruct (props !! k).
Qed.

Lemma resolve_streams_object props :
  resolve_streams (JObject props)
  = let i := chosen props "in" process_stdin in
    let o := chosen props "out" process_stdout in
    let e := chosen props "err" process_stderr in
    if negb (readable i) then inl (TypeError "options.in must be a stream.Readable")
    else if negb (writable o) then inl (TypeError "options.out must be a stream.Writable")
    else if negb (writable e) then inl (TypeError "options.err must be a stream.Writable")
    else inr (mkStreams i o e).
Proof.
  unfold resolve_streams. cbn [is_undefined is_object typeof negb andb].
  rewrite (assign_defaults_lookup props "in" process_stdin) by reflexivity.
  rewrite (assign_defaults_lookup props "out" process_stdout) by reflexivity.
  rewrite (assign_defaults_lookup props "err" process_stderr) by reflexivity.
  unfold readable, writable. cbn zeta.
  by rewrite !negb_andb.
Qed.

(** X1. Given an options object, validation of the streams succeeds
    exactly when each stream it settles on passes its check, and the
    stream it settles on for a key is the object's own whenever the
    object has that key, the process's otherwise. *)
Theorem supplied_streams_take_precedence (props : gmap string JSValue) (st : Streams) :
  resolve_streams (JObject props) = inr st ↔
    st = mkStreams (chosen props "in" process_stdin)
                   (chosen props "out" process_stdout)
                   (chosen props "err" process_stderr)
    ∧ readable (opt_in st) = true
    ∧ writable (opt_out st) = true
    ∧ writable (opt_err st) = true.
Proof.
  rewrite resolve_streams_object. cbn zeta.
  destruct (readable (chosen props "in" _)) eqn:Hi,
           (writable (chosen props "out" _)) eqn:Ho,
           (writable (chosen props "err" _)) eqn:He; cbn.
  all: split; [intros [= <-]; by cbn | intros (-> & H1 & H2 & H3); cbn in *; congruence].
Qed.

(** X2. A stream the options object does supply is never replaced by the
    process's: if it fails its check (be it undefined) validation fails
    with the error for that key, [in] being checked before [out] and
    [out] before [err]. *)
Theorem supplied_stream_never_replaced (props : gmap string JSValue) (v : JSValue) :
  (props !! "in" = Some v → readable v = false →
     resolve_streams (JObject props) = inl (TypeError "options.in must be a stream.Readable"))
  ∧ (props !! "out" = Some v → writable v = false →
     readable (chosen props "in" process_stdin) = true →
     resolve_streams (JObject props) = inl (TypeError "options.out must be a stream.Writable"))
  ∧ (props !! "err" = Some v → writable v = false →
     readable (chosen props "in" process_stdin) = true →
     writable (chosen props "out" process_stdout) = true →
     resolve_streams (JObject props) = inl (TypeError "options.err must be a stream.Writable")).
Proof.
  rewrite resolve_streams_object. cbn zeta. unfold chosen.
  split; [|split].
  - intros -> Hv. cbn. by rewrite Hv.
  - intros -> Hv Hi. cbn. by rewrite Hi, Hv.
  - intros -> Hv Hi Ho. cbn. by rewrite Hi, Ho, Hv.
Qed.

(* ===================================================================== *)
(** ** What an invocation does to the outside, whatever yargs and the
       module do *)
(* ===================================================================== *)

Section Emits.
Context (env : Env) (st : Streams) (cb : Callable) (P : Event → Prop).
Hypothesis P_out : ∀ text, P (EvWrite Out (opt_out st) text).
Hypothesis P_err : ∀ text, P (EvWrite Err (opt_err st) text).
Hypothesis P_module : ∀ o, length (files o) = 1 → P (EvModule o).
Hypothesis P_callback : ∀ f a, cb = HostFn f → P (EvCallback f a).

Local Abbreviation emits := (emits st cb P).

Lemma emits_ret {A} (a : A) : emits (ret a).
Proof. intros w Hq. split; [done|]. exists []. by rewrite app_nil_r. Qed.

Lemma emits_throw {A} e : emits (@throw A e).
Proof. intros w Hq. split; [done|]. exists []. by rewrite app_nil_r. Qed.

Lemma emits_log ev : P ev → emits (log ev).
Proof. intros Hev w Hq. split; [done|]. exists [ev]. split; [done|]. by apply Forall_singleton. Qed.

Lemma emits_settle p s : emits (settle p s).
Proof. intros w Hq. split; [done|]. exists []. by rewrite app_nil_r. Qed.

Lemma emits_enqueue t : task_ok st cb t → emits (enqueue t).
Proof.
  intros Ht w Hq. split.
  - cbn. apply Forall_app. split; [done|]. by apply Forall_singleton.
  - exists []. by rewrite app_nil_r.
Qed.

Lemma emits_bind {A B} (m : M A) (k : A → M B) :
  emits m → (∀ a, emits (k a)) → emits (m ≫= k).
Proof.
  intros Hm Hk w Hq. unfold mbind, M_bind, bind.
  destruct (Hm w Hq) as (Hq1 & new1 & Ht1 & HP1).
  destruct (m w) as [[a|e] w1]; world_simpl.
  - destruct (Hk a w1 Hq1) as (Hq2 & new2 & Ht2 & HP2).
    split; [done|]. exists (new1 ++ new2). rewrite Ht2, Ht1, app_assoc.
    split; [done|]. by apply Forall_app.
  - split; [done|]. by exists new1.
Qed.

Lemma emits_collab_actions {A} (now : A → M unit) (later : A → Task) acts e called w :
  (∀ a, emits (now a)) →
  (∀ a, task_ok st cb (later a)) →
  Forall (task_ok st cb) (queue w) →
  let r := collab_actions now later acts e called w in
  Forall (task_ok st cb) (queue r.2)
  ∧ ∃ new, trace r.2 = trace w ++ new ∧ Forall P new.
Proof.
  intros Hnow Hlater. revert called w.
  induction acts as [|[a|a] rest IH]; intros called w Hq; cbn.
  - destruct e; (split; [done|]; exists []; by rewrite app_nil_r).
  - destruct (Hnow a w Hq) as (Hq1 & new1 & Ht1 & HP1).
    destruct (now a w) as [[[]|err] w1]; world_simpl.
    + destruct (IH true w1 Hq1) as (Hq2 & new2 & Ht2 & HP2).
      split; [done|]. exists (new1 ++ new2). rewrite Ht2, Ht1, app_assoc.
      split; [done|]. by apply Forall_app.
    + split; [done|]. by exists new1.
  - destruct (emits_enqueue (later a) (Hlater a) w Hq) as (Hq1 & _).
    destruct (IH called _ Hq1) as (Hq2 & new2 & Ht2 & HP2).
    split; [done|]. by exists new2.
Qed.

Lemma emits_call_callback a : emits (call_callback env cb a).
Proof.
  assert (∀ c, cb = c → emits (call_callback env c a)) as H; [|by apply H].
  intros [f|p] Hcb; cbn.
  - apply emits_bind; [apply emits_log; by apply P_callback|].
    intros _. destruct (callback_throws env f a); [apply emits_throw|apply emits_ret].
  - destruct (c_err a); apply emits_settle.
Qed.

Lemma emits_call_modulename o : length (files o) = 1 → emits (call_modulename env o cb).
Proof.
  intros Hone w Hq. unfold call_modulename.
  destruct (emits_log (EvModule o) (P_module o Hone) w Hq) as (Hq1 & new1 & Ht1 & HP1).
  destruct (log (EvModule o) w) as [o1 w1]. world_simpl.
  pose proof (emits_collab_actions (call_callback env cb) (TkModuleDone cb)
                (actions (modulename env o)) (fin (modulename env o)) false w1
                emits_call_callback (λ a, conj eq_refl I) Hq1) as (Hq2 & new2 & Ht2 & HP2).
  destruct (collab_actions _ _ _ _ _ w1) as [[b o2] w2]. world_simpl.
  split; [done|]. exists (new1 ++ new2). rewrite Ht2, Ht1, app_assoc.
  split; [done|]. by apply Forall_app.
Qed.

Lemma emits_on_parsed pa : emits (on_parsed env st cb pa).
Proof.
  unfold on_parsed. destruct (p_err pa).
  - apply emits_bind; [apply emits_log, P_err|]. intros _. apply emits_call_callback.
  - apply emits_bind.
    { destruct (nonempty _); [apply emits_log, P_out|apply emits_ret]. }
    intros _. destruct (p_argv pa) as [argOpts|]; [|apply emits_throw].
    destruct (_ || _); [apply emits_call_callback|].
    destruct (length (argv_positional argOpts) =? 1) eqn:Hlen; cbn.
    + apply emits_call_modulename. cbn. by apply Nat.eqb_eq.
    + apply emits_bind; [apply emits_log, P_err|]. intros _. apply emits_call_callback.
Qed.

Lemma emits_run_task t : task_ok st cb t → emits (run_task env t).
Proof.
  destruct t as [cb' e|st' cb' pa|cb' ca]; intros [Hcb Hst]; cbn in *; subst.
  - apply emits_call_callback.
  - apply emits_on_parsed.
  - apply emits_call_callback.
Qed.

Lemma emits_run_loop fuel : emits (run_loop env fuel).
Proof.
  induction fuel as [|n IH]; intros w Hq; cbn.
  - split; [done|]. exists []. by rewrite app_nil_r.
  - unfold pop_task. destruct (queue w) as [|t rest] eqn:Hqw.
    + cbn. split; [by rewrite Hqw|]. exists []. by rewrite app_nil_r.
    + apply Forall_cons in Hq as [Ht Hrest].
      set (w0 := mkWorld (trace w) rest (promises w) (main_is_module w)).
      destruct (emits_run_task t Ht w0 Hrest) as (Hq1 & new1 & Ht1 & HP1).
      destruct (run_task env t w0) as [[[]|err] w1]; world_simpl.
      * destruct (IH w1 Hq1) as (Hq2 & new2 & Ht2 & HP2).
        split; [done|]. exists (new1 ++ new2). rewrite Ht2, Ht1, app_assoc.
        split; [done|]. by apply Forall_app.
      * split; [done|]. by exists new1.
Qed.

(** After the parse has been started, parseYargs adds only such events. *)
Lemma emits_after_parse tokens w :
  Forall (task_ok st cb) (queue w) →
  let r := parseYargs (new_Yargs env) tokens (on_parsed env st cb) (TkParsed st cb) w in
  Forall (task_ok st cb) (queue r.2)
  ∧ ∃ new, trace r.2 = trace w ++ EvParse (yargs_config env) tokens :: new ∧ Forall P new.
Proof.
  intros Hq. unfold parseYargs, new_Yargs, log. cbn [y_parse y_config].
  set (w0 := mkWorld _ _ _ _).
  pose proof (emits_collab_actions (on_parsed env st cb) (TkParsed st cb)
                (actions (Yargs env (yargs_config env) tokens))
                (fin (Yargs env (yargs_config env) tokens)) false w0
                emits_on_parsed (λ a, conj eq_refl eq_refl) Hq) as (Hq2 & new2 & Ht2 & HP2).
  destruct (collab_actions _ _ _ _ _ w0) as [[b o2] w2]. world_simpl.
  assert (trace w2 = trace w ++ EvParse (yargs_config env) tokens :: new2) as Ht2'.
  { rewrite Ht2. subst w0. cbn. by rewrite <- app_assoc. }
  destruct o2 as [[]|err].
  - destruct b; (split; [done|]; by exists new2).
  - destruct b.
    + split; [done|]. by exists new2.
    + destruct (emits_on_parsed (mkParseArgs (Some err) None None) w2 Hq2)
        as (Hq3 & new3 & Ht3 & HP3).
      split; [done|]. exists (new2 ++ new3). rewrite Ht3, Ht2', <- app_assoc. cbn.
      split; [done|]. by apply Forall_app.
Qed.

Lemma emits_body args options tokens w :
  validate env args options = inr (tokens, st) →
  Forall (task_ok st cb) (queue w) →
  let r := modulenameCmd_body env args options cb w in
  Forall (task_ok st cb) (queue r.2)
  ∧ ∃ new, trace r.2 = trace w ++ EvParse (yargs_config env) tokens :: new ∧ Forall P new.
Proof.
  intros Hval Hq. unfold modulenameCmd_body. rewrite Hval.
  unfold mbind, M_bind, bind, set_require_main.
  set (w0 := mkWorld _ _ _ _).
  apply (emits_after_parse tokens w0 Hq).
Qed.

(** The whole invocation, in the callback style with [cb] as the callback
    or in the deferred style with the settler of the Promise as [cb]. *)
Lemma emits_invoke args options callback tokens fuel :
  validate env args options = inr (tokens, st) →
  (∃ props, callback = JFunction cb props)
  ∨ (deferred_style env options callback ∧ cb = Settler 0) →
  ∃ rest,
    trace (invoke env fuel args options callback).2
    = EvParse (yargs_config env) tokens :: rest
    ∧ Forall P rest.
Proof.
  intros Hval [[props ->] | [(Ht & Ho & Hp) Hcb]].
  - unfold invoke. rewrite modulenameCmd_callable.
    unfold mbind, M_bind, bind.
    destruct (emits_body args options tokens init_world Hval)
      as (Hq1 & new1 & Ht1 & HP1); [by apply Forall_nil|].
    destruct (modulenameCmd_body env args options cb init_world) as [[[]|e] w1];
      world_simpl; unfold ret; world_simpl.
    all: destruct (emits_run_loop fuel w1 Hq1) as (_ & new2 & Ht2 & HP2).
    all: destruct (run_loop env fuel w1) as [l w2]; world_simpl.
    all: exists (new1 ++ new2); rewrite Ht2, Ht1; cbn.
    all: split; [done|]; by apply Forall_app.
  - unfold invoke, modulenameCmd. rewrite Ht, Ho, Hp. cbn [negb andb]. rewrite Ht. cbn [negb andb].
    unfold mbind, M_bind, bind, new_Promise, init_world. world_simpl. cbn [length app].
    set (w0 := mkWorld [] [] [Pending] false).
    destruct (emits_body args options tokens w0 Hval)
      as (Hq1 & new1 & Ht1 & HP1); [by apply Forall_nil|].
    rewrite <- Hcb.
    destruct (modulenameCmd_body env args options cb w0) as [[[]|e] w1];
      world_simpl; unfold mbind, M_bind, bind, ret, settle; world_simpl.
    + destruct (emits_run_loop fuel w1 Hq1) as (_ & new2 & Ht2 & HP2).
      destruct (run_loop env fuel w1) as [l w2]; world_simpl.
      exists (new1 ++ new2); rewrite Ht2, Ht1; cbn.
      split; [done|]; by apply Forall_app.
    + set (w1' := mkWorld _ _ _ _).
      destruct (emits_run_loop fuel w1' Hq1) as (_ & new2 & Ht2 & HP2).
      destruct (run_loop env fuel w1') as [l w2]; world_simpl.
      exists (new1 ++ new2); rewrite Ht2. subst w1'. world_simpl. rewrite Ht1; cbn.
      split; [done|]; by apply Forall_app.
Qed.

End Emits.

Section Invariants.
Context (env : Env).

(** X3. Once validation has passed, every write of the invocation goes
    through [options.out] to the output stream or through [options.err]
    to the error stream that validation settled on; the input stream is
    never touched.  This holds whatever yargs and the module do, in both
    styles and for any number of turns. *)
Theorem writes_only_to_resolved_streams
    (args options callback : JSValue) (tokens : list (option string)) (st : Streams)
    (fuel : nat) :
  validate env args options = inr (tokens, st) →
  is_function callback = true ∨ deferred_style env options callback →
  ∀ r sink text,
    EvWrite r sink text ∈ trace (invoke env fuel args options callback).2 →
    (r = Out ∧ sink = opt_out st) ∨ (r = Err ∧ sink = opt_err st).
Proof.
  intros Hval Hstyle r sink text Hin.
  set (P := λ ev, match ev with
                  | EvWrite r sink _ => (r = Out ∧ sink = opt_out st) ∨ (r = Err ∧ sink = opt_err st)
                  | _ => True
                  end).
  assert (∃ rest, trace (invoke env fuel args options callback).2
                  = EvParse (yargs_config env) tokens :: rest ∧ Forall P rest)
    as (rest & Htr & HP).
  { destruct Hstyle as [Hfun | Hdef].
    - destruct callback as [| | | | |c props| |]; try done.
      apply (emits_invoke env st c P); try done; [by left|by right|by left; eexists].
    - apply (emits_invoke env st (Settler 0) P); try done; [by left|by right|by right]. }
  rewrite Htr in Hin. apply elem_of_cons in Hin as [Heq | Hin]; [done|].
  rewrite Forall_forall in HP. apply (HP _ Hin).
Qed.

(** X4. Whatever yargs hands to its completion and however often, the
    wrapped module is only ever called with exactly one file. *)
Theorem module_called_with_one_file
    (args options callback : JSValue) (tokens : list (option string)) (st : Streams)
    (fuel : nat) :
  validate env args options = inr (tokens, st) →
  is_function callback = true ∨ deferred_style env options callback →
  ∀ cmdOpts,
    EvModule cmdOpts ∈ trace (invoke env fuel args options callback).2 →
    length (files cmdOpts) = 1.
Proof.
  intros Hval Hstyle cmdOpts Hin.
  set (P := λ ev, match ev with
                  | EvModule o => length (files o) = 1
                  | _ => True
                  end).
  assert (∃ rest, trace (invoke env fuel args options callback).2
                  = EvParse (yargs_config env) tokens :: rest ∧ Forall P rest)
    as (rest & Htr & HP).
  { destruct Hstyle as [Hfun | Hdef].
    - destruct callback as [| | | | |c props| |]; try done.
      apply (emits_invoke env st c P); try done. by left; eexists.
    - apply (emits_invoke env st (Settler 0) P); try done. by right. }
  rewrite Htr in Hin. apply elem_of_cons in Hin as [Heq | Hin]; [done|].
  rewrite Forall_forall in HP. apply (HP _ Hin).
Qed.

(** X5. Once validation has passed, yargs is asked to parse exactly
    once, with the configuration of lines 129-146 and the normalised
    arguments, whatever happens afterwards. *)
Theorem parsed_exactly_once
    (args options callback : JSValue) (tokens : list (option string)) (st : Streams)
    (fuel : nat) :
  validate env args options = inr (tokens, st) →
  is_function callback = true ∨ deferred_style env options callback →
  omap (λ ev, match ev with EvParse cfg t => Some (cfg, t) | _ => None end)
       (trace (invoke env fuel args options callback).2)
  = [(yargs_config env, tokens)].
Proof.
  intros Hval Hstyle.
  set (P := λ ev, match ev with
                  | EvParse _ _ => False
                  | _ => True
                  end).
  assert (∃ rest, trace (invoke env fuel args options callback).2
                  = EvParse (yargs_config env) tokens :: rest ∧ Forall P rest)
    as (rest & Htr & HP).
  { destruct Hstyle as [Hfun | Hdef].
    - destruct callback as [| | | | |c props| |]; try done.
      apply (emits_invoke env st c P); try done. by left; eexists.
    - apply (emits_invoke env st (Settler 0) P); try done. by right. }
  rewrite Htr. cbn. f_equal.
  clear Htr. induction HP as [|ev rest Hev _ IH]; [done|].
  cbn. destruct ev; try done.
Qed.

End Invariants.

(* ===================================================================== *)
(** ** When the completion signal comes *)
(* ===================================================================== *)

Section Styles.
Context (env : Env).

(** X6. In the deferred style a validation failure is not thrown either:
    the call returns the Promise, still pending, having written and
    parsed nothing, and the next turn rejects it with the error. *)
Theorem deferred_validation_failure
    (args options callback : JSValue) (err : Error) (fuel : nat) :
  validate env args options = inl err →
  deferred_style env options callback →
  (∃ w1, modulenameCmd env args options callback init_world = (Ret (RPromise 0), w1)
         ∧ promises w1 = [Pending] ∧ trace w1 = [])
  ∧ let '(_, l, w) := invoke env (1 + fuel) args options callback in
    l = Ret tt ∧ promises w = [Rejected err] ∧ trace w = [] ∧ queue w = [].
Proof.
  intros Hval (Ht & Ho & Hp).
  unfold invoke, modulenameCmd, new_Promise, modulenameCmd_body.
  split.
  - eexists. run_js. done.
  - run_js. done.
Qed.

(** X7. Unlike a validation failure, the outcome of a parse is reported
    in the turn in which yargs fires its completion: when yargs fires it
    at once, the callback has already received exit code 1 (parse error,
    wrong number of arguments) or 0 (help, version) by the time the call
    returns, and nothing is left queued. *)
Theorem parse_outcome_reported_inline
    (args options : JSValue) (f : nat) (props : gmap string JSValue)
    (tokens : list (option string)) (st : Streams) (pa : ParseArgs) (code : Z) :
  validate env args options = inr (tokens, st) →
  Yargs env (yargs_config env) tokens = mkRun [Now pa] Returns →
  (is_Some (p_err pa) ∧ code = 1%Z)
  ∨ (∃ argOpts, p_err pa = None ∧ p_argv pa = Some argOpts
       ∧ ((argv_help argOpts || argv_version argOpts = true ∧ code = 0%Z)
          ∨ (argv_help argOpts || argv_version argOpts = false
             ∧ length (argv_positional argOpts) ≠ 1 ∧ code = 1%Z))) →
  let w1 := (modulenameCmd env args options (JFunction (HostFn f) props) init_world).2 in
  callbacks_of f (trace w1) = [mkCbArgs None (Some code)] ∧ queue w1 = [].
Proof.
  intros Hval Hrun Hcase.
  unfold modulenameCmd, modulenameCmd_body, parseYargs.
  destruct Hcase as [[[err Herr] ->] | (argOpts & Herr & Hargv & [[Hflag ->] | (Hflag & Hlen & ->)])].
  3: apply Nat.eqb_neq in Hlen.
  all: run_js.
  all: try (rewrite decide_True by done).
  all: done.
Qed.


(** X9. On the way to the wrapped module the entry point writes nothing
    to the error stream, and to the output stream only what yargs
    rendered. *)
Theorem dispatch_writes_nothing_of_its_own
    (args options : JSValue) (f : nat) (props : gmap string JSValue)
    (tokens : list (option string)) (st : Streams)
    (argOpts : Argv) (output : option string) (ca : CbArgs) (fuel : nat) :
  let cmdOpts := {| files := argv_positional argOpts;
                    verbosity := (argv_verbose argOpts - argv_quiet argOpts)%Z |} in
  validate env args options = inr (tokens, st) →
  parses_to env tokens argOpts output →
  argv_help argOpts = false →
  argv_version argOpts = false →
  length (argv_positional argOpts) = 1 →
  once ca (modulename env cmdOpts) →
  (let '(_, _, w) := invoke env (2 + fuel) args options (JFunction (HostFn f) props) in
   writes_to Err (trace w) = [] ∧ writes_to Out (trace w) = rendered st output)
  ∧ (∀ callback,
       deferred_style env options callback →
       let '(_, _, w) := invoke env (2 + fuel) args options callback in
       writes_to Err (trace w) = [] ∧ writes_to Out (trace w) = rendered st output).
Proof.
  intros cmdOpts Hval [Hfin Hact] Hh Hv Hlen [Hmfin Hmact]. subst cmdOpts.
  split.
  - unfold invoke, modulenameCmd, modulenameCmd_body, parseYargs, rendered.
    destruct Hact as [Ha | Ha], Hmact as [Hm | Hm].
    all: run_js.
    all: done.
  - intros callback (Ht & Ho & Hp).
    unfold invoke, modulenameCmd, new_Promise, modulenameCmd_body, parseYargs, rendered.
    destruct ca as [[e|] result].
    all: destruct Hact as [Ha | Ha], Hmact as [Hm | Hm].
    all: run_js.
    all: done.
Qed.

(** X10. There is no completion signal of the entry point's own making:
    if yargs returns without firing its completion, the callback is never
    called and the Promise stays pending, however many turns pass. *)
Theorem silent_collaborator_no_signal
    (args options : JSValue) (f : nat) (props : gmap string JSValue)
    (tokens : list (option string)) (st : Streams) (fuel : nat) :
  validate env args options = inr (tokens, st) →
  Yargs env (yargs_config env) tokens = mkRun [] Returns →
  (let '(r, l, w) := invoke env fuel args options (JFunction (HostFn f) props) in
   r = Ret RUndefined ∧ l = Ret tt
   ∧ trace w = [EvParse (yargs_config env) tokens] ∧ queue w = [])
  ∧ (∀ callback,
       deferred_style env options callback →
       let '(r, l, w) := invoke env fuel args options callback in
       r = Ret (RPromise 0) ∧ l = Ret tt ∧ promises w = [Pending] ∧ queue w = []).
Proof.
  intros Hval Hrun. split.
  - unfold invoke, modulenameCmd, modulenameCmd_body, parseYargs.
    run_js; done.
  - intros callback (Ht & Ho & Hp).
    unfold invoke, modulenameCmd, new_Promise, modulenameCmd_body, parseYargs.
    run_js; done.
Qed.

End Styles.

(* ===================================================================== *)
(** ** The process (lines 185-204) *)
(* ===================================================================== *)

Lemma resolve_streams_mainOptions : resolve_streams mainOptions = inr default_streams.
Proof. vm_compute. reflexivity. Qed.

Lemma validate_argv env (argv : list string) :
  2 ≤ length argv →
  validate env (JArray (JStr <$> argv)) mainOptions
  = inr (Some <$> drop 2 argv, default_streams).
Proof.
  intros Hlen. unfold validate.
  rewrite normalize_args_array by (by rewrite length_fmap).
  rewrite resolve_streams_mainOptions. do 2 f_equal.
  rewrite <- fmap_drop, <- list_fmap_compose. done.
Qed.

Ltac run_main :=
  repeat (run_js; try rewrite decide_True by done).

Section MainRuns.
Context (env : Env) (error_props : Error → ErrorProps).

(** X11. Run directly on a command line with one argument, the process
    exits with the code the wrapped module reports, having written
    nothing but what yargs rendered. *)
Theorem main_exits_with_module_result
    (f : nat) (argv : list string) (argOpts : Argv) (output : option string)
    (result : option Z) (fuel : nat) :
  let cmdOpts := {| files := argv_positional argOpts;
                    verbosity := (argv_verbose argOpts - argv_quiet argOpts)%Z |} in
  2 ≤ length argv →
  parses_to env (Some <$> drop 2 argv) argOpts output →
  argv_help argOpts = false →
  argv_version argOpts = false →
  length (argv_positional argOpts) = 1 →
  once (mkCbArgs None result) (modulename env cmdOpts) →
  main error_props env (2 + fuel) f argv
  = rendered_to_stdout output ++ [PExit (result_value result)].
Proof.
  intros cmdOpts Hlen [Hfin Hact] Hh Hv Hone [Hmfin Hmact]. subst cmdOpts.
  pose proof (validate_argv env argv Hlen) as Hval.
  unfold main, invoke, modulenameCmd, modulenameCmd_body, parseYargs, rendered_to_stdout.
  clear Hlen.
  destruct Hact as [Ha | Ha], Hmact as [Hm | Hm].
  all: run_main.
  all: done.
Qed.

(** X12. Run directly, when the wrapped module reports an error the
    process writes the error's buffered [stdout] to standard output, its
    buffered [stderr] and then its name and message to standard error,
    and exits with the error's [exitCode] if that is a number and with 1
    otherwise; the exit code passed along with the error is ignored. *)
Theorem main_reports_module_error
    (f : nat) (argv : list string) (argOpts : Argv) (output : option string)
    (err : Error) (result : option Z) (fuel : nat) :
  let cmdOpts := {| files := argv_positional argOpts;
                    verbosity := (argv_verbose argOpts - argv_quiet argOpts)%Z |} in
  2 ≤ length argv →
  parses_to env (Some <$> drop 2 argv) argOpts output →
  argv_help argOpts = false →
  argv_version argOpts = false →
  length (argv_positional argOpts) = 1 →
  once (mkCbArgs (Some err) result) (modulename env cmdOpts) →
  main error_props env (2 + fuel) f argv
  = rendered_to_stdout output
    ++ match nonempty (ep_stdout (error_props err)) with
       | Some text => [PWrite process_stdout text]
       | None => []
       end
    ++ match nonempty (ep_stderr (error_props err)) with
       | Some text => [PWrite process_stderr text]
       | None => []
       end
    ++ [PWrite process_stderr (err_name err +:+ ": " +:+ err_message err +:+ LF);
        PExit (match ep_exitCode (error_props err) with
               | JNum n => JNum n
               | _ => JNum (Finite 1)
               end)].
Proof.
  intros cmdOpts Hlen [Hfin Hact] Hh Hv Hone [Hmfin Hmact]. subst cmdOpts.
  pose proof (validate_argv env argv Hlen) as Hval.
  assert (∀ v, match typeof v with TNumber => v | _ => JNum (Finite 1) end
               = match v with JNum n => JNum n | _ => JNum (Finite 1) end) as Hnum
    by (by intros []).
  unfold main, invoke, modulenameCmd, modulenameCmd_body, parseYargs, rendered_to_stdout.
  clear Hlen.
  destruct Hact as [Ha | Ha], Hmact as [Hm | Hm].
  all: run_main.
  all: unfold main_callback; cbn [c_err]; by rewrite Hnum.
Qed.

(** X13. Run directly, the process exits with 0 after help or version
    text went to standard output, and with 1 after the message for a
    wrong number of arguments, or for a parse error, went to standard
    error. *)
Theorem main_usage_exit_codes
    (f : nat) (argv : list string) (fuel : nat) :
  2 ≤ length argv →
  (∀ argOpts output,
     parses_to env (Some <$> drop 2 argv) argOpts output →
     argv_help argOpts || argv_version argOpts = true →
     main error_props env (1 + fuel) f argv
     = rendered_to_stdout output ++ [PExit (JNum (Finite 0))])
  ∧ (∀ argOpts output,
     parses_to env (Some <$> drop 2 argv) argOpts output →
     argv_help argOpts = false → argv_version argOpts = false →
     length (argv_positional argOpts) ≠ 1 →
     main error_props env (1 + fuel) f argv
     = rendered_to_stdout output
       ++ [PWrite process_stderr ("Error: Exactly one argument is required." +:+ LF);
           PExit (JNum (Finite 1))])
  ∧ (∀ err output,
     parse_fails env (Some <$> drop 2 argv) err output →
     main error_props env (1 + fuel) f argv
     = [PWrite process_stderr
          (match nonempty output with
           | Some text => text +:+ LF
           | None => err_name err +:+ ": " +:+ err_message err +:+ LF
           end);
        PExit (JNum (Finite 1))]).
Proof.
  intros Hlen.
  pose proof (validate_argv env argv Hlen) as Hval. clear Hlen.
  split; [|split].
  - intros argOpts output [Hfin Hact] Hflag.
    unfold main, invoke, modulenameCmd, modulenameCmd_body, parseYargs, rendered_to_stdout.
    destruct Hact as [Ha | Ha].
    all: run_main.
    all: done.
  - intros argOpts output [Hfin Hact] Hh Hv Hone.
    apply Nat.eqb_neq in Hone.
    unfold main, invoke, modulenameCmd, modulenameCmd_body, parseYargs, rendered_to_stdout.
    destruct Hact as [Ha | Ha].
    all: run_main.
    all: done.
  - intros err output Hfail.
    unfold main, invoke, modulenameCmd, modulenameCmd_body, parseYargs.
    destruct Hfail as [[argOpts [Hfin [Ha | Ha]]] | [Hrun ->]].
    all: run_main.
    all: done.
Qed.

End MainRuns.

(* ===================================================================== *)
(** ** parseYargs, however often yargs fires the completion *)
(* ===================================================================== *)

(** X14. However many completions yargs fires or defers before it
    throws: if one was fired during the call, parseYargs ends exactly as
    the call to yargs did, by a throw, and hands the error to nobody; if
    none was, parseYargs is one run of the completion on the thrown
    error, in a world where nothing but the parse has happened. *)
Theorem parseYargs_error_goes_one_way
    (yargs : YargsInstance) (args : list (option string))
    (callback : ParseArgs → M unit) (later : ParseArgs → Task)
    (acts : list (Action ParseArgs)) (e : Error) (w : World) :
  y_parse yargs args = mkRun acts (Throws e) →
  let w0 := (log (EvParse (y_config yargs) args) w).2 in
  let r := collab_actions callback later acts (Throws e) false w0 in
  ((∃ pa, Now pa ∈ acts) →
     parseYargs yargs args callback later w = (r.1.2, r.2)
     ∧ ∃ e', r.1.2 = Throw e')
  ∧ ((∀ pa, Now pa ∉ acts) →
     parseYargs yargs args callback later w
     = callback (mkParseArgs (Some e) None None) r.2
     ∧ trace r.2 = trace w0).
Proof.
  intros Hrun w0 r. unfold parseYargs. rewrite Hrun. cbn [actions fin].
  change (log (EvParse (y_config yargs) args) w) with (Ret tt, w0).
  cbv beta iota. fold r. clearbody w0. subst r. split.
  - intros [pa Hpa].
    pose proof (collab_actions_entered callback later acts (Throws e) false w0 pa Hpa) as Hc.
    pose proof (collab_actions_throws callback later acts e false w0) as [e' He'].
    destruct (collab_actions _ _ _ _ _ w0) as [[b o] w1]. cbn in *. subst b o.
    cbn. split; [done|by eexists].
  - intros Hnone.
    pose proof (collab_actions_not_entered callback later acts (Throws e) w0 Hnone) as [H1 H2].
    destruct (collab_actions _ _ _ _ _ w0) as [[b o] w1]. cbn in *.
    injection H1 as -> ->. done.
Qed.

(* ===================================================================== *)
(** ** The sample command line *)
(* ===================================================================== *)

Lemma sample_never_throws : never_throws Sample.env 7.
Proof. intros a. reflexivity. Qed.

Lemma sample_module_returns : module_returns Sample.env.
Proof. intros o. reflexivity. Qed.

Lemma sample_yargs_orderly : yargs_orderly Sample.env.
Proof.
  intros tokens. cbn -[yargs_config]. unfold Sample.parse.
  destruct (Sample.scan _ _ _) as [a unknown]. cbn.
  split; [by left|]. intros pa Hin Herr.
  apply list_elem_of_singleton in Hin. injection Hin as ->.
  destruct (argv_help a), (argv_version a), unknown; cbn in *; eauto; done.
Qed.

(** [cmd -v -v -q x]: one call of the module with verbosity 1, and its
    exit code 0 handed to the callback or resolving the Promise. *)
Lemma single_positional_dispatch_witness :
  let args := Sample.argv ["node"; "cmd"; "-v"; "-v"; "-q"; "x"] in
  (let '(_, _, w) := invoke Sample.env 2 args JUndefined Sample.callback in
   module_calls (trace w) = [ {| files := [JStr "x"]; verbosity := 1 |} ]
   ∧ callbacks_of 7 (trace w) = [mkCbArgs None (Some 0%Z)]
   ∧ queue w = [])
  ∧ (let '(r, _, w) := invoke Sample.env 2 args JUndefined JUndefined in
     r = Ret (RPromise 0)
     ∧ module_calls (trace w) = [ {| files := [JStr "x"]; verbosity := 1 |} ]
     ∧ promises w = [Resolved (Some 0%Z)]
     ∧ queue w = []).
Proof.
  assert (H := single_positional_dispatch Sample.env
           (Sample.argv ["node"; "cmd"; "-v"; "-v"; "-q"; "x"]) JUndefined 7 ∅
           [Some "-v"; Some "-v"; Some "-q"; Some "x"] default_streams
           (mkArgv false false [JStr "x"] 2 1) (Some "") (mkCbArgs None (Some 0%Z)) 0).
  destruct H as [Hcb Hdef].
  - vm_compute. reflexivity.
  - split; [reflexivity | left; reflexivity].
  - reflexivity.
  - reflexivity.
  - reflexivity.
  - split; [reflexivity | right; reflexivity].
  - split; [exact Hcb|]. apply (Hdef JUndefined). repeat split.
Defined.

(** [cmd] with no argument. *)
Lemma positional_count_error_witness :
  let message := (process_stderr, "Error: Exactly one argument is required." +:+ LF) in
  (let '(_, _, w) := invoke Sample.env 1 (Sample.argv ["node"; "cmd"]) JUndefined Sample.callback in
   module_calls (trace w) = []
   ∧ writes_to Err (trace w) = [message]
   ∧ callbacks_of 7 (trace w) = [mkCbArgs None (Some 1%Z)]
   ∧ queue w = [])
  ∧ (let '(r, _, w) := invoke Sample.env 1 (Sample.argv ["node"; "cmd"]) JUndefined JNull in
     r = Ret (RPromise 0)
     ∧ module_calls (trace w) = []
     ∧ writes_to Err (trace w) = [message]
     ∧ promises w = [Resolved (Some 1%Z)]
     ∧ queue w = []).
Proof.
  assert (H := positional_count_error Sample.env (Sample.argv ["node"; "cmd"]) JUndefined 7 ∅
           [] default_streams (mkArgv false false [] 0 0) (Some "") 0).
  destruct H as [Hcb Hdef].
  - vm_compute. reflexivity.
  - split; [reflexivity | left; reflexivity].
  - reflexivity.
  - reflexivity.
  - cbn. lia.
  - split; [exact Hcb|]. apply (Hdef JNull). repeat split.
Defined.

(** [cmd --help]. *)
Lemma terminal_flag_exit_zero_witness :
  let text := (process_stdout, Sample.help_text (yargs_config Sample.env) +:+ LF) in
  (let '(_, _, w) :=
     invoke Sample.env 1 (Sample.argv ["node"; "cmd"; "--help"]) JUndefined Sample.callback in
   callbacks_of 7 (trace w) = [mkCbArgs None (Some 0%Z)]
   ∧ writes_to Out (trace w) = [text]
   ∧ writes_to Err (trace w) = []
   ∧ module_calls (trace w) = []
   ∧ queue w = [])
  ∧ (let '(r, _, w) :=
       invoke Sample.env 1 (Sample.argv ["node"; "cmd"; "--help"]) JUndefined JUndefined in
     r = Ret (RPromise 0)
     ∧ promises w = [Resolved (Some 0%Z)]
     ∧ writes_to Out (trace w) = [text]
     ∧ writes_to Err (trace w) = []
     ∧ module_calls (trace w) = []
     ∧ queue w = []).
Proof.
  assert (H := terminal_flag_exit_zero Sample.env (Sample.argv ["node"; "cmd"; "--help"])
           JUndefined 7 ∅
           [Some "--help"] default_streams (mkArgv true false [] 0 0)
           (Some (Sample.help_text (yargs_config Sample.env))) 0).
  destruct H as [Hcb Hdef].
  - vm_compute. reflexivity.
  - split; [reflexivity | left; reflexivity].
  - reflexivity.
  - split; [exact Hcb|]. apply (Hdef JUndefined). repeat split.
Defined.

(** [cmd --bogus x]. *)
Lemma parse_error_exit_one_witness :
  let message :=
    (process_stderr,
     Sample.help_text (yargs_config Sample.env) +:+ LF +:+ LF
       +:+ "Unknown argument: --bogus" +:+ LF) in
  (let '(_, _, w) :=
     invoke Sample.env 1 (Sample.argv ["node"; "cmd"; "--bogus"; "x"]) JUndefined Sample.callback in
   writes_to Err (trace w) = [message]
   ∧ writes_to Out (trace w) = []
   ∧ callbacks_of 7 (trace w) = [mkCbArgs None (Some 1%Z)]
   ∧ module_calls (trace w) = []
   ∧ queue w = [])
  ∧ (let '(r, _, w) :=
       invoke Sample.env 1 (Sample.argv ["node"; "cmd"; "--bogus"; "x"]) JUndefined JUndefined in
     r = Ret (RPromise 0)
     ∧ writes_to Err (trace w) = [message]
     ∧ writes_to Out (trace w) = []
     ∧ promises w = [Resolved (Some 1%Z)]
     ∧ module_calls (trace w) = []
     ∧ queue w = []).
Proof.
  assert (H := parse_error_exit_one Sample.env
           (Sample.argv ["node"; "cmd"; "--bogus"; "x"]) JUndefined 7 ∅
           [Some "--bogus"; Some "x"] default_streams
           (mkError "YError" "Unknown argument: --bogus")
           (Some (Sample.help_text (yargs_config Sample.env) +:+ LF +:+ LF
                    +:+ "Unknown argument: --bogus")) 0).
  destruct H as [Hcb Hdef].
  - vm_compute. reflexivity.
  - left. exists (Some (mkArgv false false [JStr "x"] 0 0)).
    split; [reflexivity | left; reflexivity].
  - split; [exact Hcb|]. apply (Hdef JUndefined). repeat split.
Defined.

(** A completion that only records that it was fired, and a yargs that
    throws with a completion left for later; between two of them and one
    it fires; and one that returns while the completion throws. *)
Lemma parseYargs_completion_once_witness :
  let cfg := yargs_config Sample.env in
  let boom := mkError "Error" "boom" in
  let pa := mkParseArgs None (Some (mkArgv true false [] 0 0)) (Some "") in
  let fired := λ pa : ParseArgs, log (EvCallback 0 (mkCbArgs (p_err pa) None)) in
  let tk := TkParsed default_streams (HostFn 0) in
  parseYargs (mkYargs cfg (λ _, mkRun [Later pa] (Throws boom))) [] fired tk init_world
    = (Ret tt, mkWorld [EvParse cfg []; EvCallback 0 (mkCbArgs (Some boom) None)] [tk pa] [] false)
  ∧ parseYargs (mkYargs cfg (λ _, mkRun [Later pa; Now pa; Later pa] (Throws boom))) [] fired tk init_world
    = (Throw boom, mkWorld [EvParse cfg []; EvCallback 0 (mkCbArgs None None)] [tk pa; tk pa] [] false)
  ∧ parseYargs (mkYargs cfg (λ _, mkRun [Now pa] Returns)) [] (λ _, throw boom) tk init_world
    = (Throw boom, mkWorld [EvParse cfg []] [] [] false).
Proof.
  intros cfg boom pa fired tk. split; [|split].
  - exact (proj1 (parseYargs_completion_once
                    (mkYargs cfg (λ _, mkRun [Later pa] (Throws boom))) [] fired
                    tk boom init_world) [pa] eq_refl).
  - exact (proj1 (proj2 (parseYargs_completion_once
                    (mkYargs cfg (λ _, mkRun [Later pa; Now pa; Later pa] (Throws boom))) [] fired
                    tk boom init_world)) [pa] pa [pa] eq_refl).
  - exact (proj1 (proj2 (proj2 (parseYargs_completion_once
                    (mkYargs cfg (λ _, mkRun [Now pa] Returns)) [] (λ _, throw boom)
                    tk boom init_world)))
             [] pa [] Returns boom _ eq_refl eq_refl).
Defined.

(** C4, as it was stated, fails for a yargs that leaves its completion
    for a later turn and then throws: parseYargs hands the thrown error
    to the completion at once, and the deferred completion still runs on
    the next turn.  The parse completion has then fired twice for the one
    parse, and so has the caller's callback, first with exit code 1 and
    then with exit code 0. *)
Lemma parseYargs_completion_once_counterexample :
  let boom := mkError "Error" "boom" in
  let pa := mkParseArgs None (Some (mkArgv true false [] 0 0)) (Some "usage") in
  let env := Sample.env_of (λ _ _, mkRun [Later pa] (Throws boom)) (modulename Sample.env) in
  let args := Sample.argv ["node"; "cmd"; "--help"] in
  let '(r, w1) := modulenameCmd env args JUndefined Sample.callback init_world in
  r = Ret RUndefined
  ∧ callbacks_of 7 (trace w1) = [mkCbArgs None (Some 1%Z)]
  ∧ queue w1 = [TkParsed default_streams (HostFn 7) pa]
  ∧ callbacks_of 7 (trace (run_loop env 1 w1).2)
    = [mkCbArgs None (Some 1%Z); mkCbArgs None (Some 0%Z)].
Proof. vm_compute. repeat split. Qed.

(** [cmd x] without a callback: the Promise resolves to the exit code. *)
Lemma deferred_wraps_callback_form_witness :
  let args := Sample.argv ["node"; "cmd"; "x"] in
  let '(rp, lp, wp) := invoke Sample.env 3 args JUndefined JUndefined in
  rp = Ret (RPromise 0)
  ∧ promises wp = [Resolved (Some 0%Z)]
  ∧ trace wp = non_callback (invoke Sample.env 3 args JUndefined Sample.callback).2.(trace)
  ∧ lp = Ret tt.
Proof.
  exact (proj2 (deferred_wraps_callback_form Sample.env 7 sample_never_throws
                  (Sample.argv ["node"; "cmd"; "x"]) JUndefined JUndefined 3
                  (conj eq_refl (conj eq_refl eq_refl)))).
Defined.

(** An [args] of one element. *)
Lemma validation_failure_deferred_witness :
  let too_short := RangeError "args must have at least 2 elements" in
  modulenameCmd Sample.env (Sample.argv ["node"]) JUndefined Sample.callback init_world
    = (Ret RUndefined, mkWorld [] [TkCallbackErr (HostFn 7) too_short] [] false)
  ∧ let '(r, _, w2) := invoke Sample.env 1 (Sample.argv ["node"]) JUndefined Sample.callback in
    r = Ret RUndefined
    ∧ trace w2 = [EvCallback 7 (mkCbArgs (Some too_short) None)]
    ∧ queue w2 = [].
Proof.
  exact (validation_failure_deferred Sample.env (Sample.argv ["node"]) JUndefined 7 ∅
           (RangeError "args must have at least 2 elements") init_world 0 eq_refl).
Defined.




(** [true] as the callback; a function in the options position; [false]
    as the callback; a callback that throws when [--help] is parsed; and
    a parser that throws after firing its completion. *)
Lemma callback_type_error_witness :
  let boom := mkError "Error" "boom" in
  let pa := mkParseArgs None (Some (mkArgv true false [] 0 0)) (Some "usage") in
  let late := Sample.env_of (λ _ _, mkRun [Now pa] (Throws boom)) (modulename Sample.env) in
  modulenameCmd Sample.env JNull JUndefined (JBool true) init_world
    = (Throw (TypeError "callback must be a function"), init_world)
  ∧ (∃ r w', modulenameCmd Sample.env (Sample.argv ["node"; "cmd"; "x"]) Sample.callback JUndefined init_world
             = (Ret r, w'))
  ∧ (∃ w', modulenameCmd Sample.env (Sample.argv ["node"; "cmd"; "x"]) JUndefined (JBool false) init_world
           = (Ret (RPromise 0), w'))
  ∧ (∃ w', modulenameCmd Sample.env (Sample.argv ["node"; "cmd"; "--help"]) JUndefined Sample.faulty init_world
           = (Throw (mkError "Error" "callback failed"), w'))
  ∧ (∃ e' w', modulenameCmd late (Sample.argv ["node"; "cmd"; "--help"]) JUndefined Sample.callback init_world
              = (Throw e', w')).
Proof.
  intros boom pa late. split; [|split; [|split; [|split]]].
  - apply (proj1 (callback_type_error Sample.env JNull JUndefined (JBool true))). reflexivity.
  - apply (proj1 (proj2 (callback_type_error Sample.env (Sample.argv ["node"; "cmd"; "x"])
                           Sample.callback JUndefined))).
    + reflexivity.
    + intros f props Heq. injection Heq as <- _. apply sample_never_throws.
    + apply sample_module_returns.
    + apply sample_yargs_orderly.
  - apply (proj1 (proj2 (proj2 (callback_type_error Sample.env (Sample.argv ["node"; "cmd"; "x"])
                                  JUndefined (JBool false))))). repeat split.
  - eexists.
    eapply (proj1 (proj2 (proj2 (proj2 (callback_type_error Sample.env
                    (Sample.argv ["node"; "cmd"; "--help"]) JUndefined Sample.faulty))))
              (HostFn 13) ∅ [Some "--help"] default_streams).
    + vm_compute. reflexivity.
    + vm_compute. reflexivity.
    + vm_compute. reflexivity.
  - eapply (proj2 (proj2 (proj2 (proj2 (callback_type_error late
                    (Sample.argv ["node"; "cmd"; "--help"]) JUndefined Sample.callback))))
              (HostFn 7) ∅ [Some "--help"] default_streams [Now pa] boom pa).
    + vm_compute. reflexivity.
    + reflexivity.
    + apply list_elem_of_here.
Defined.

(** C9, as it was stated, fails twice over on the sample command: a
    callback that is present and not a function ([false]) gets a Promise
    back instead of a TypeError; and with a function as callback the call
    still throws, when that function throws while yargs is firing the
    parse completion. *)
Lemma callback_type_error_counterexample :
  (is_undefined (JBool false) = false
   ∧ is_function (JBool false) = false
   ∧ (modulenameCmd Sample.env (Sample.argv ["node"; "cmd"; "x"]) JUndefined (JBool false) init_world).1
     = Ret (RPromise 0))
  ∧ (is_function Sample.faulty = true
     ∧ (modulenameCmd Sample.env (Sample.argv ["node"; "cmd"; "--help"]) JUndefined Sample.faulty init_world).1
       = Throw (mkError "Error" "callback failed")).
Proof. vm_compute. repeat split. Qed.

(** An options object that brings its own output stream. *)
Lemma supplied_streams_take_precedence_witness :
  let mine := JObject {[ "write" := JFunction (HostFn 21) ∅ ]} in
  resolve_streams (JObject {[ "out" := mine ]})
  = inr (mkStreams process_stdin mine process_stderr).
Proof.
  intros mine.
  apply (proj2 (supplied_streams_take_precedence {[ "out" := mine ]}
                  (mkStreams process_stdin mine process_stderr))).
  repeat split.
Defined.

(** An options object whose [in] is there but undefined, one whose [out]
    cannot be written to and one whose [err] is a string. *)
Lemma supplied_stream_never_replaced_witness :
  resolve_streams (JObject {[ "in" := JUndefined ]})
    = inl (TypeError "options.in must be a stream.Readable")
  ∧ resolve_streams (JObject {[ "out" := JObject ∅ ]})
    = inl (TypeError "options.out must be a stream.Writable")
  ∧ resolve_streams (JObject {[ "err" := JStr "stderr" ]})
    = inl (TypeError "options.err must be a stream.Writable").
Proof.
  split; [|split].
  - apply (proj1 (supplied_stream_never_replaced {[ "in" := JUndefined ]} JUndefined));
      reflexivity.
  - apply (proj1 (proj2 (supplied_stream_never_replaced {[ "out" := JObject ∅ ]} (JObject ∅))));
      reflexivity.
  - apply (proj2 (proj2 (supplied_stream_never_replaced {[ "err" := JStr "stderr" ]}
                           (JStr "stderr"))));
      reflexivity.
Defined.

(** [cmd --help] and [cmd -q x] with the sample collaborators. *)
Lemma writes_only_to_resolved_streams_witness :
  Forall (λ ev, match ev with
                | EvWrite r sink _ =>
                    (r = Out ∧ sink = process_stdout) ∨ (r = Err ∧ sink = process_stderr)
                | _ => True
                end)
         (trace (invoke Sample.env 3 (Sample.argv ["node"; "cmd"; "--help"]) JUndefined
                   Sample.callback).2).
Proof.
  apply Forall_forall. intros [cfg t|r sink text|o|g a] Hin; try exact I.
  apply (writes_only_to_resolved_streams Sample.env
           (Sample.argv ["node"; "cmd"; "--help"]) JUndefined Sample.callback
           [Some "--help"] default_streams 3) with (text := text).
  - vm_compute. reflexivity.
  - left. reflexivity.
  - exact Hin.
Defined.

Lemma module_called_with_one_file_witness :
  Forall (λ ev, match ev with
                | EvModule cmdOpts => length (files cmdOpts) = 1
                | _ => True
                end)
         (trace (invoke Sample.env 3 (Sample.argv ["node"; "cmd"; "-q"; "x"]) JUndefined
                   JUndefined).2).
Proof.
  apply Forall_forall. intros [cfg t|r sink text|o|g a] Hin; try exact I.
  apply (module_called_with_one_file Sample.env
           (Sample.argv ["node"; "cmd"; "-q"; "x"]) JUndefined JUndefined
           [Some "-q"; Some "x"] default_streams 3).
  - vm_compute. reflexivity.
  - right. repeat split.
  - exact Hin.
Defined.

Lemma parsed_exactly_once_witness :
  omap (λ ev, match ev with EvParse cfg t => Some (cfg, t) | _ => None end)
       (trace (invoke Sample.env 3 (Sample.argv ["node"; "cmd"; "-q"; "x"]) JUndefined Sample.callback).2)
  = [(yargs_config Sample.env, [Some "-q"; Some "x"])].
Proof.
  apply (parsed_exactly_once Sample.env
           (Sample.argv ["node"; "cmd"; "-q"; "x"]) JUndefined Sample.callback
           [Some "-q"; Some "x"] default_streams 3).
  - vm_compute. reflexivity.
  - left. reflexivity.
Defined.

(** An [args] of one element and no callback. *)
Lemma deferred_validation_failure_witness :
  let too_short := RangeError "args must have at least 2 elements" in
  (∃ w1, modulenameCmd Sample.env (Sample.argv ["node"]) JUndefined JUndefined init_world
         = (Ret (RPromise 0), w1)
         ∧ promises w1 = [Pending] ∧ trace w1 = [])
  ∧ let '(_, l, w) := invoke Sample.env 1 (Sample.argv ["node"]) JUndefined JUndefined in
    l = Ret tt ∧ promises w = [Rejected too_short] ∧ trace w = [] ∧ queue w = [].
Proof.
  apply (deferred_validation_failure Sample.env (Sample.argv ["node"]) JUndefined JUndefined
           (RangeError "args must have at least 2 elements") 0).
  - reflexivity.
  - repeat split.
Defined.

(** [cmd] with no argument: the callback has been called when the call
    returns. *)
Lemma parse_outcome_reported_inline_witness :
  let w1 := (modulenameCmd Sample.env (Sample.argv ["node"; "cmd"]) JUndefined
               Sample.callback init_world).2 in
  callbacks_of 7 (trace w1) = [mkCbArgs None (Some 1%Z)] ∧ queue w1 = [].
Proof.
  apply (parse_outcome_reported_inline Sample.env (Sample.argv ["node"; "cmd"]) JUndefined 7 ∅
           [] default_streams
           (mkParseArgs None (Some (mkArgv false false [] 0 0)) (Some "")) 1).
  - vm_compute. reflexivity.
  - reflexivity.
  - right. exists (mkArgv false false [] 0 0). repeat split. right. repeat split. cbn. lia.
Defined.


Lemma dispatch_writes_nothing_of_its_own_witness :
  let args := Sample.argv ["node"; "cmd"; "-v"; "x"] in
  (let '(_, _, w) := invoke Sample.env 2 args JUndefined Sample.callback in
   writes_to Err (trace w) = [] ∧ writes_to Out (trace w) = [])
  ∧ (let '(_, _, w) := invoke Sample.env 2 args JUndefined JUndefined in
     writes_to Err (trace w) = [] ∧ writes_to Out (trace w) = []).
Proof.
  intros args.
  assert (H := dispatch_writes_nothing_of_its_own Sample.env args JUndefined 7 ∅
           [Some "-v"; Some "x"] default_streams
           (mkArgv false false [JStr "x"] 1 0) (Some "") (mkCbArgs None (Some 0%Z)) 0).
  destruct H as [Hcb Hdef].
  - vm_compute. reflexivity.
  - split; [reflexivity | left; reflexivity].
  - reflexivity.
  - reflexivity.
  - reflexivity.
  - split; [reflexivity | right; reflexivity].
  - split; [exact Hcb|]. apply (Hdef JUndefined). repeat split.
Defined.

(** A parser that returns without ever firing its completion. *)
Lemma silent_collaborator_no_signal_witness :
  let env := Sample.env_of (λ _ _, mkRun [] Returns) (modulename Sample.env) in
  let args := Sample.argv ["node"; "cmd"; "x"] in
  (let '(r, l, w) := invoke env 5 args JUndefined Sample.callback in
   r = Ret RUndefined ∧ l = Ret tt
   ∧ trace w = [EvParse (yargs_config env) [Some "x"]] ∧ queue w = [])
  ∧ (let '(r, l, w) := invoke env 5 args JUndefined JUndefined in
     r = Ret (RPromise 0) ∧ l = Ret tt ∧ promises w = [Pending] ∧ queue w = []).
Proof.
  intros env args.
  assert (H := silent_collaborator_no_signal env args JUndefined 7 ∅
           [Some "x"] default_streams 5).
  destruct H as [Hcb Hdef].
  - vm_compute. reflexivity.
  - reflexivity.
  - split; [exact Hcb|]. apply (Hdef JUndefined). repeat split.
Defined.

(** [node cmd x] run directly, the module reporting 0. *)
Lemma main_exits_with_module_result_witness :
  main Sample.failure_props Sample.env 2 7 ["node"; "cmd"; "x"]
  = [PExit (JNum (Finite 0))].
Proof.
  apply (main_exits_with_module_result Sample.env Sample.failure_props 7 ["node"; "cmd"; "x"]
           (mkArgv false false [JStr "x"] 0 0) (Some "") (Some 0%Z) 0).
  - cbn. lia.
  - split; [reflexivity | left; reflexivity].
  - reflexivity.
  - reflexivity.
  - reflexivity.
  - split; [reflexivity | right; reflexivity].
Defined.

(** [node cmd x] run directly, the module failing with buffered output and
    an exit code of its own. *)
Lemma main_reports_module_error_witness :
  let env := Sample.env_of Sample.parse
               (λ _, mkRun [Now (mkCbArgs (Some Sample.failure) None)] Returns) in
  main Sample.failure_props env 2 7 ["node"; "cmd"; "x"]
  = [PWrite process_stdout "partial output";
     PWrite process_stderr ("Error: not on branch" +:+ LF);
     PExit (JNum (Finite 3))].
Proof.
  intros env.
  apply (main_reports_module_error env Sample.failure_props 7 ["node"; "cmd"; "x"]
           (mkArgv false false [JStr "x"] 0 0) (Some "") Sample.failure None 0).
  - cbn. lia.
  - split; [reflexivity | left; reflexivity].
  - reflexivity.
  - reflexivity.
  - reflexivity.
  - split; [reflexivity | left; reflexivity].
Defined.

(** [node cmd --version], [node cmd] and [node cmd --bogus x] run directly. *)
Lemma main_usage_exit_codes_witness :
  main Sample.failure_props Sample.env 1 7 ["node"; "cmd"; "--version"]
    = [PWrite process_stdout ("git-branch-is 0.1.0" +:+ LF); PExit (JNum (Finite 0))]
  ∧ main Sample.failure_props Sample.env 1 7 ["node"; "cmd"]
    = [PWrite process_stderr ("Error: Exactly one argument is required." +:+ LF);
       PExit (JNum (Finite 1))]
  ∧ main Sample.failure_props Sample.env 1 7 ["node"; "cmd"; "--bogus"; "x"]
    = [PWrite process_stderr
         (Sample.help_text (yargs_config Sample.env) +:+ LF +:+ LF
            +:+ "Unknown argument: --bogus" +:+ LF);
       PExit (JNum (Finite 1))].
Proof.
  split; [|split].
  - apply (proj1 (main_usage_exit_codes Sample.env Sample.failure_props 7
                    ["node"; "cmd"; "--version"] 0 ltac:(cbn; lia))
             (mkArgv false true [] 0 0) (Some "git-branch-is 0.1.0")).
    + split; [reflexivity | left; reflexivity].
    + reflexivity.
  - apply (proj1 (proj2 (main_usage_exit_codes Sample.env Sample.failure_props 7
                           ["node"; "cmd"] 0 ltac:(cbn; lia)))
             (mkArgv false false [] 0 0) (Some "")).
    + split; [reflexivity | left; reflexivity].
    + reflexivity.
    + reflexivity.
    + cbn. lia.
  - apply (proj2 (proj2 (main_usage_exit_codes Sample.env Sample.failure_props 7
                           ["node"; "cmd"; "--bogus"; "x"] 0 ltac:(cbn; lia)))
             (mkError "YError" "Unknown argument: --bogus")
             (Some (Sample.help_text (yargs_config Sample.env) +:+ LF +:+ LF
                      +:+ "Unknown argument: --bogus"))).
    left. exists (Some (mkArgv false false [JStr "x"] 0 0)).
    split; [reflexivity | left; reflexivity].
Defined.

(** A yargs that both defers a completion and fires one at once before it
    throws, and one that only defers before it throws. *)
Lemma parseYargs_error_goes_one_way_witness :
  let cfg := yargs_config Sample.env in
  let boom := mkError "Error" "boom" in
  let pa := mkParseArgs None (Some (mkArgv true false [] 0 0)) (Some "") in
  let fired := λ pa : ParseArgs, log (EvCallback 0 (mkCbArgs (p_err pa) None)) in
  let later := TkParsed default_streams (HostFn 0) in
  parseYargs (mkYargs cfg (λ _, mkRun [Later pa; Now pa] (Throws boom))) [] fired later init_world
    = (Throw boom,
       mkWorld [EvParse cfg []; EvCallback 0 (mkCbArgs None None)] [later pa] [] false)
  ∧ parseYargs (mkYargs cfg (λ _, mkRun [Later pa] (Throws boom))) [] fired later init_world
    = (Ret tt,
       mkWorld [EvParse cfg []; EvCallback 0 (mkCbArgs (Some boom) None)] [later pa] [] false).
Proof.
  intros cfg boom pa fired later. split.
  - apply (proj1 (parseYargs_error_goes_one_way
                    (mkYargs cfg (λ _, mkRun [Later pa; Now pa] (Throws boom))) [] fired later
                    [Later pa; Now pa] boom init_world eq_refl)).
    exists pa. apply list_elem_of_further, list_elem_of_here.
  - apply (proj2 (parseYargs_error_goes_one_way
                    (mkYargs cfg (λ _, mkRun [Later pa] (Throws boom))) [] fired later
                    [Later pa] boom init_world eq_refl)).
    intros pa' Hin. apply list_elem_of_singleton in Hin. discriminate.
Defined.
